(** * analytics-engine, ibis-server: metadata assembly and the session cache

    A shallow embedding of

    - [app/model/metadata/clickhouse.py]: the ClickHouse type mapping
      [CLICKHOUSE_TYPE_MAPPING], [_transform_column_type],
      [_format_compact_table_name] and the loop of [get_table_list];
    - [app/mdl/core.py]: [get_session_context], a function wrapped in
      [functools.cache], and [to_json_base64].

    Python [str] values are modelled as [string]; every key of the mapping
    table is ASCII, and [str.lower] is modelled on the ASCII letters (the
    only non-ASCII character whose lower case is an ASCII letter is the
    Kelvin sign, which becomes [k], a letter that no key contains). *)

From Stdlib Require Import Ascii String NArith ZArith.
From stdpp Require Import gmap strings list pretty sorting.

Set Warnings "-register-all,-clear-no-such-hyp".

Open Scope string_scope.
Open Scope list_scope.

(** ** Python strings *)

Definition ascii_lower (c : ascii) : ascii :=
  let n := N_of_ascii c in
  if ((65 <=? n) && (n <=? 90))%N then ascii_of_N (n + 32) else c.

Definition ascii_upper (c : ascii) : ascii :=
  let n := N_of_ascii c in
  if ((97 <=? n) && (n <=? 122))%N then ascii_of_N (n - 32) else c.

(** [str.lower()] and [str.upper()] *)
Fixpoint lower (s : string) : string :=
  match s with
  | EmptyString => EmptyString
  | String c s' => String (ascii_lower c) (lower s')
  end.

Fixpoint upper (s : string) : string :=
  match s with
  | EmptyString => EmptyString
  | String c s' => String (ascii_upper c) (upper s')
  end.

(** Two characters that differ at most in letter case, stated without
    reference to [lower]: equal, or an upper-case letter and the lower-case
    letter 32 code points above it. *)
Definition same_letter (a b : ascii) : Prop :=
  a = b
  ∨ ((65 ≤ N_of_ascii a ≤ 90)%N ∧ N_of_ascii b = (N_of_ascii a + 32)%N)
  ∨ ((65 ≤ N_of_ascii b ≤ 90)%N ∧ N_of_ascii a = (N_of_ascii b + 32)%N).

Inductive same_modulo_case : string → string → Prop :=
  | smc_nil : same_modulo_case EmptyString EmptyString
  | smc_cons a b s t :
      same_letter a b → same_modulo_case s t →
      same_modulo_case (String a s) (String b t).

(** ** The logger (loguru) *)

Inductive Level := TRACE | DEBUG | INFO | SUCCESS | WARNING | ERROR | CRITICAL.

Record LogEvent := mkLogEvent { level : Level; message : string }.

(** [logger.warning(msg)]: one event appended to the sink. *)
Definition logger_warning (msg : string) : list LogEvent :=
  [mkLogEvent WARNING msg].

(** ** app/model/metadata/dto.py (the records the metadata code builds) *)

Inductive RustAnalyticsEngineColumnType :=
  | BOOL | TINYINT | INT2 | INT4 | INT8 | FLOAT4 | FLOAT8 | DECIMAL
  | DATE | TIMESTAMP | VARCHAR | CHAR | UUID | STRING | INET | UNKNOWN.

Global Instance RustAnalyticsEngineColumnType_eq_dec :
  EqDecision RustAnalyticsEngineColumnType.
Proof. solve_decision. Defined.

Module Column.
Record t := mk {
  name : string;
  type : RustAnalyticsEngineColumnType;
  notNull : bool;
  description : string;
  properties : option (list (string * string))
}.
End Column.

Module TableProperties.
Record t := mk {
  catalog : option string;
  schema : string;
  table : string
}.
End TableProperties.

Module Table.
Record t := mk {
  name : string;
  description : string;
  columns : list Column.t;
  properties : TableProperties.t;
  primaryKey : string
}.

(** [self.columns.append(c)] *)
Definition columns_append (c : Column.t) (tbl : t) : t :=
  mk (name tbl) (description tbl) (columns tbl ++ [c]) (properties tbl)
     (primaryKey tbl).
End Table.

(** ** Insertion-ordered dictionaries

    [unique_tables] is a Python [dict]: iteration follows the order in which
    the keys were first inserted, and assigning to a key that is present
    keeps its position. *)

Module PyDict.
Section PyDict.
Context {V : Type}.

Definition t := list (string * V).

Definition keys (d : t) : list string := d.*1.
Definition values (d : t) : list V := d.*2.

(** [k in d] *)
Definition contains (k : string) (d : t) : bool :=
  bool_decide (k ∈ keys d).

(** [d[k] = v] *)
Fixpoint setitem (k : string) (v : V) (d : t) : t :=
  match d with
  | [] => [(k, v)]
  | (k', v') :: d' =>
      if decide (k = k') then (k', v) :: d' else (k', v') :: setitem k v d'
  end.

(** [f(d[k])], where [f] mutates the object stored under [k] in place. The
    loop reaches this only with [k] present, so the [KeyError] of an absent
    key has no counterpart here. *)
Fixpoint alter (f : V → V) (k : string) (d : t) : t :=
  match d with
  | [] => []
  | (k', v') :: d' =>
      if decide (k = k') then (k', f v') :: d' else (k', v') :: alter f k d'
  end.
End PyDict.
Arguments t : clear implicits.
End PyDict.

(** ** app/model/metadata/clickhouse.py *)

Definition CLICKHOUSE_TYPE_MAPPING : gmap string RustAnalyticsEngineColumnType :=
  list_to_map [
    ("boolean", BOOL);
    ("int8", TINYINT);
    ("uint8", INT2);
    ("int16", INT2);
    ("uint16", INT2);
    ("int32", INT4);
    ("uint32", INT4);
    ("int64", INT8);
    ("uint64", INT8);
    ("float32", FLOAT4);
    ("float64", FLOAT8);
    ("decimal", DECIMAL);
    ("date", DATE);
    ("datetime", TIMESTAMP);
    ("string", VARCHAR);
    ("fixedstring", CHAR);
    ("uuid", UUID);
    ("enum8", STRING);
    ("enum16", STRING);
    ("ipv4", INET);
    ("ipv6", INET)
  ].

(** One record of [response]: the six columns the catalogue query selects,
    all of ClickHouse type [String]. *)
Record Row := mkRow {
  table_schema : string;
  table_name : string;
  table_comment : string;
  column_name : string;
  data_type : string;
  column_comment : string
}.

(** [f"{schema}.{table}"] *)
Definition _format_compact_table_name (schema table : string) : string :=
  schema +:+ "." +:+ table.

(** [_transform_column_type]: the mapped type, and the events it logs. *)
Definition _transform_column_type (data_type : string)
    : RustAnalyticsEngineColumnType * list LogEvent :=
  let normalized_type := lower data_type in
  let mapped_type := default UNKNOWN (CLICKHOUSE_TYPE_MAPPING !! normalized_type) in
  if decide (mapped_type = UNKNOWN)
  then (mapped_type, logger_warning ("Unknown ClickHouse data type: " +:+ data_type))
  else (mapped_type, []).

(** The body of the [for row in response] loop: the dictionary and the log
    after one more row. *)
Definition get_table_list_row (acc : PyDict.t Table.t * list LogEvent) (row : Row)
    : PyDict.t Table.t * list LogEvent :=
  let '(unique_tables, log) := acc in
  let schema_table :=
    _format_compact_table_name (table_schema row) (table_name row) in
  let unique_tables :=
    if negb (PyDict.contains schema_table unique_tables)
    then PyDict.setitem schema_table
           (Table.mk schema_table (table_comment row) []
              (TableProperties.mk None (table_schema row) (table_name row))
              EmptyString)
           unique_tables
    else unique_tables in
  let '(ty, events) := _transform_column_type (data_type row) in
  (PyDict.alter
     (Table.columns_append
        (Column.mk (column_name row) ty false (column_comment row) None))
     schema_table unique_tables,
   log ++ events).

(** [get_table_list], from the rows the catalogue query returned. *)
Definition get_table_list (response : list Row) : list Table.t * list LogEvent :=
  let '(unique_tables, log) := foldl get_table_list_row ([], []) response in
  (PyDict.values unique_tables, log).

(** *** What the assembly is compared with *)

Definition compact_name (row : Row) : string :=
  _format_compact_table_name (table_schema row) (table_name row).

Definition column_of_row (row : Row) : Column.t :=
  Column.mk (column_name row) (_transform_column_type (data_type row)).1 false
            (column_comment row) None.

(** The distinct elements of a list, in the order of their first occurrence. *)
Fixpoint first_seen (l : list string) : list string :=
  match l with
  | [] => []
  | x :: l' => x :: filter (λ y, y ≠ x) (first_seen l')
  end.

(** The rows of one table, in arrival order. *)
Definition rows_of (k : string) (rows : list Row) : list Row :=
  filter (λ r, compact_name r = k) rows.

(** What holds of the dictionary after the rows [seen]: its keys are the
    compact names in first-seen order, and the table under a key carries
    that key as its name, the columns of the rows of that key in arrival
    order, an empty primary key and no catalog. *)
Definition table_of (seen : list Row) (item : string * Table.t) : Prop :=
  Table.name item.2 = item.1 ∧
  Table.columns item.2 = column_of_row <$> rows_of item.1 seen ∧
  Table.primaryKey item.2 = EmptyString ∧
  TableProperties.catalog (Table.properties item.2) = None.

Definition assembled (seen : list Row) (d : PyDict.t Table.t) : Prop :=
  PyDict.keys d = first_seen (compact_name <$> seen) ∧
  Forall (table_of seen) d.

Definition logged (seen : list Row) : list LogEvent :=
  seen ≫= λ r, (_transform_column_type (data_type r)).2.


(** ** app/mdl/core.py: [get_session_context]

    The values the three parameters take: [None], a [str], a [frozenset] of
    key/value pairs, and (a value the annotations exclude but a caller can
    pass) a [dict], which is not hashable. *)

Inductive pyval :=
  | PNone
  | PStr (s : string)
  | PFrozenset (items : gset (string * string))
  | PDict (items : list (string * string)).

Global Instance pyval_eq_dec : EqDecision pyval.
Proof. solve_decision. Defined.

Global Instance pyval_countable : Countable pyval.
Proof.
  refine (inj_countable'
    (λ v, match v with
          | PNone => inl ()
          | PStr s => inr (inl s)
          | PFrozenset fs => inr (inr (inl fs))
          | PDict d => inr (inr (inr d))
          end)
    (λ x, match x with
          | inl _ => PNone
          | inr (inl s) => PStr s
          | inr (inr (inl fs)) => PFrozenset fs
          | inr (inr (inr d)) => PDict d
          end) _).
  by intros [].
Defined.

Definition hashable (v : pyval) : bool :=
  match v with PDict _ => false | _ => true end.

Inductive exn :=
  | TypeError (msg : string)
  | EngineError (msg : string).

Inductive result (A : Type) :=
  | Ok (a : A)
  | Raise (e : exn).
Arguments Ok {A} a.
Arguments Raise {A} e.

(** A call of [get_session_context]: the positional values, and
    the keyword arguments in the order of the call site (a call cannot
    repeat a keyword). *)
Record call := mkCall {
  args : list pyval;
  kwds : list (string * pyval)
}.

(** The elements of a cache key: the arguments, and [kwd_mark], the object
    that separates positional from keyword arguments and equals no value. *)
Inductive key_item :=
  | kwd_mark
  | KVal (v : pyval).

Global Instance key_item_eq_dec : EqDecision key_item.
Proof. solve_decision. Defined.

Global Instance key_item_countable : Countable key_item.
Proof.
  refine (inj_countable'
    (λ i, match i with kwd_mark => None | KVal v => Some v end)
    (λ o, match o with None => kwd_mark | Some v => KVal v end) _).
  by intros [].
Defined.

(** A key is the single argument itself when that is a [str] (the fast
    path), and a [_HashedSeq] otherwise; the two kinds never compare equal. *)
Inductive cache_key :=
  | KFast (v : pyval)
  | KHashedSeq (items : list key_item).

Global Instance cache_key_eq_dec : EqDecision cache_key.
Proof. solve_decision. Defined.

Global Instance cache_key_countable : Countable cache_key.
Proof.
  refine (inj_countable'
    (λ k, match k with KFast v => inl v | KHashedSeq l => inr l end)
    (λ x, match x with inl v => KFast v | inr l => KHashedSeq l end) _).
  by intros [].
Defined.

Definition hashable_item (i : key_item) : bool :=
  match i with kwd_mark => true | KVal v => hashable v end.

(** [functools._make_key(args, kwds, typed=False)]; hashing the sequence
    raises [TypeError] when an argument is not hashable. *)
Definition _make_key (c : call) : result cache_key :=
  let key :=
    (KVal <$> args c) ++
    match kwds c with
    | [] => []
    | _ => kwd_mark :: flat_map (λ item, [KVal (PStr item.1); KVal item.2]) (kwds c)
    end in
  match key with
  | [KVal (PStr s)] => Ok (KFast (PStr s))
  | _ =>
      if forallb hashable_item key then Ok (KHashedSeq key)
      else Raise (TypeError "unhashable type")
  end.

(** The parameters of [get_session_context]; [properties] defaults to
    [None]. *)
Definition parameters : list string :=
  ["manifest_str"; "function_path"; "properties"].

Definition lookup_arg (name : string) (env : list (string * pyval)) : option pyval :=
  snd <$> find (λ item, bool_decide (item.1 = name)) env.

(** Binding of the arguments of a call to the three parameters, as Python
    does it when the wrapped function is entered. *)
Definition bind_arguments (c : call) : result (pyval * pyval * pyval) :=
  if bool_decide (length parameters < length (args c))
  then Raise (TypeError "too many positional arguments")
  else
    let positional := zip parameters (args c) in
    if existsb (λ item, bool_decide (item.1 ∉ parameters)) (kwds c)
    then Raise (TypeError "unexpected keyword argument")
    else if existsb (λ item, bool_decide (item.1 ∈ positional.*1)) (kwds c)
    then Raise (TypeError "multiple values for argument")
    else
      let env := positional ++ kwds c in
      match lookup_arg "manifest_str" env, lookup_arg "function_path" env with
      | Some m, Some f => Ok (m, f, default PNone (lookup_arg "properties" env))
      | _, _ => Raise (TypeError "missing required positional argument")
      end.

(** The external constructor [analytics_core.SessionContext]: whether the
    invocation number [n] (counted from 0) with the given arguments raises.
    A handle is the address of the object built. *)
Definition constructor := nat → pyval * pyval * pyval → option exn.

(** The state of the process the wrapper acts on: the dictionary and the
    statistics of [functools.cache], the objects constructed so far, and
    the invocations of the constructor (successful or not), oldest first. *)
Record cache_state := mkState {
  cache : gmap cache_key nat;
  hits : nat;
  misses : nat;
  heap : list (pyval * pyval * pyval);
  invocations : list (pyval * pyval * pyval)
}.

Definition initial_state : cache_state := mkState ∅ 0 0 [] [].

Inductive outcome :=
  | Returned (handle : nat)
  | Raised (e : exn).

(** The wrapper that [@cache] puts around [get_session_context]
    ([functools.lru_cache] with [maxsize=None]):
    make the key, return the cached object on a hit; on a miss run the
    function and store its result only when it returned. *)
Definition get_session_context (SessionContext : constructor) (c : call)
    (s : cache_state) : outcome * cache_state :=
  match _make_key c with
  | Raise e => (Raised e, s)
  | Ok key =>
      match cache s !! key with
      | Some handle =>
          (Returned handle,
           mkState (cache s) (S (hits s)) (misses s) (heap s) (invocations s))
      | None =>
          match bind_arguments c with
          | Raise e =>
              (Raised e,
               mkState (cache s) (hits s) (S (misses s)) (heap s) (invocations s))
          | Ok a =>
              match SessionContext (length (invocations s)) a with
              | Some e =>
                  (Raised e,
                   mkState (cache s) (hits s) (S (misses s)) (heap s)
                           (invocations s ++ [a]))
              | None =>
                  let handle := length (heap s) in
                  (Returned handle,
                   mkState (<[key := handle]> (cache s)) (hits s) (S (misses s))
                           (heap s ++ [a]) (invocations s ++ [a]))
              end
          end
      end
  end.

(** A sequence of calls, one after another; the outcomes, oldest first. *)
Fixpoint get_session_context_seq (SessionContext : constructor)
    (cs : list call) (s : cache_state) : list outcome * cache_state :=
  match cs with
  | [] => ([], s)
  | c :: cs' =>
      let '(o, s1) := get_session_context SessionContext c s in
      let '(os, s2) := get_session_context_seq SessionContext cs' s1 in
      (o :: os, s2)
  end.

(** A constructor that never raises. *)
Definition always_succeeds : constructor := λ _ _, None.

(** A constructor that raises on its first invocation only. *)
Definition fails_once : constructor :=
  λ n _, match n with 0 => Some (EngineError "engine unavailable") | _ => None end.

(** The state after a hit. *)
Definition count_hit (s : cache_state) : cache_state :=
  mkState (cache s) (S (hits s)) (misses s) (heap s) (invocations s).

(** The state after a miss whose construction with [a] succeeded. *)
Definition store_new (key : cache_key) (a : pyval * pyval * pyval)
    (s : cache_state) : cache_state :=
  mkState (<[key := length (heap s)]> (cache s)) (hits s) (S (misses s))
          (heap s ++ [a]) (invocations s ++ [a]).

(** *** Callers in several threads

    [functools] documents that the wrapped function may be called more than
    once when another thread makes a call before the first one has been
    cached: the wrapper holds no lock while the function runs. A call is
    therefore three atomic steps: the look-up, the run of the function, and
    the store. *)

Inductive thread :=
  | Calling (c : call)
  | Missed (c : call) (key : cache_key)
  | Storing (key : cache_key) (handle : nat)
  | Finished (o : outcome).

Definition thread_step (SessionContext : constructor) (s : cache_state)
    (t : thread) : cache_state * thread :=
  match t with
  | Calling c =>
      match _make_key c with
      | Raise e => (s, Finished (Raised e))
      | Ok key =>
          match cache s !! key with
          | Some handle =>
              (mkState (cache s) (S (hits s)) (misses s) (heap s) (invocations s),
               Finished (Returned handle))
          | None =>
              (mkState (cache s) (hits s) (S (misses s)) (heap s) (invocations s),
               Missed c key)
          end
      end
  | Missed c key =>
      match bind_arguments c with
      | Raise e => (s, Finished (Raised e))
      | Ok a =>
          match SessionContext (length (invocations s)) a with
          | Some e =>
              (mkState (cache s) (hits s) (misses s) (heap s) (invocations s ++ [a]),
               Finished (Raised e))
          | None =>
              (mkState (cache s) (hits s) (misses s) (heap s ++ [a])
                       (invocations s ++ [a]),
               Storing key (length (heap s)))
          end
      end
  | Storing key handle =>
      (mkState (<[key := handle]> (cache s)) (hits s) (misses s) (heap s)
               (invocations s),
       Finished (Returned handle))
  | Finished o => (s, Finished o)
  end.

Record config := mkConfig {
  shared : cache_state;
  threads : list thread
}.

(** Thread [i] takes its next step (nothing happens when there is no such
    thread, or when it has finished). *)
Definition schedule_step (SessionContext : constructor) (cfg : config) (i : nat)
    : config :=
  match threads cfg !! i with
  | None => cfg
  | Some t =>
      let '(s', t') := thread_step SessionContext (shared cfg) t in
      mkConfig s' (<[i := t']> (threads cfg))
  end.

(** The run of a schedule: the list of the threads that step, in order. *)
Definition run (SessionContext : constructor) (schedule : list nat) (cfg : config)
    : config :=
  foldl (schedule_step SessionContext) cfg schedule.

(** A serial schedule: the callers go one after another, each taking its
    three steps with no step of another caller in between. *)
Definition serial (order : list nat) : list nat :=
  flat_map (λ i, [i; i; i]) order.


(** ** app/mdl/core.py: [to_json_base64]

    [analytics_core] is the native extension module; its source is not part
    of the Python sources. *)

Module analytics_core.

(** Modelled from the spec: the manifest object handed to
    [analytics_core.to_json_base64], an in-memory JSON document. An object
    holds its fields in the order in which they were inserted. *)
Inductive json :=
  | JNull
  | JBool (b : bool)
  | JNumber (n : Z)
  | JString (s : string)
  | JArray (items : list json)
  | JObject (fields : list (string * json)).

(** Modelled from the spec: the logical content of a manifest. The fields
    of an object form a finite map from names to contents, so the order of
    insertion is not part of the content; the items of an array are
    ordered. *)
Inductive content :=
  | CNull
  | CBool (b : bool)
  | CNumber (n : Z)
  | CString (s : string)
  | CArray (items : list content)
  | CObject (fields : gmap string content).

Fixpoint logical_content (j : json) : content :=
  match j with
  | JNull => CNull
  | JBool b => CBool b
  | JNumber n => CNumber n
  | JString s => CString s
  | JArray items => CArray (logical_content <$> items)
  | JObject fields =>
      CObject (list_to_map ((λ kv, (kv.1, logical_content kv.2)) <$> fields))
  end.

(** Modelled from the spec: a manifest object is well formed when no
    object in it has two fields of the same name. *)
Fixpoint well_formed (j : json) : bool :=
  match j with
  | JArray items => forallb well_formed items
  | JObject fields =>
      bool_decide (NoDup fields.*1) && forallb (λ kv, well_formed kv.2) fields
  | _ => true
  end.

Definition dquote : string := String (ascii_of_N 34) EmptyString.
Definition backslash : string := String (ascii_of_N 92) EmptyString.

Definition hex_digit (n : N) : string :=
  match String.get (N.to_nat n) "0123456789abcdef" with
  | Some c => String c EmptyString
  | None => "?"
  end.

(** One character of a JSON string literal: the quote, the backslash and
    the control characters are escaped. *)
Definition escape_char (c : ascii) : string :=
  let n := N_of_ascii c in
  if (n =? 34)%N then backslash +:+ dquote
  else if (n =? 92)%N then backslash +:+ backslash
  else if (n <? 32)%N
  then backslash +:+ "u00" +:+ hex_digit (n / 16) +:+ hex_digit (n mod 16)
  else String c EmptyString.

Fixpoint escape (s : string) : string :=
  match s with
  | EmptyString => EmptyString
  | String c s' => escape_char c +:+ escape s'
  end.

Definition quote (s : string) : string := dquote +:+ escape s +:+ dquote.

Fixpoint join (sep : string) (l : list string) : string :=
  match l with
  | [] => EmptyString
  | [x] => x
  | x :: l' => x +:+ sep +:+ join sep l'
  end.

(** The order of the fields in the canonical text: by name. *)
Definition field_le (a b : string * string) : Prop :=
  String.leb a.1 b.1 = true.

Global Instance field_le_dec a b : Decision (field_le a b).
Proof. unfold field_le. apply _. Defined.

(** Modelled from the spec: the canonical JSON text of a manifest, without
    white space, the fields of every object in ascending order of their
    names, whatever the order of insertion. *)
Fixpoint to_json (j : json) : string :=
  match j with
  | JNull => "null"
  | JBool true => "true"
  | JBool false => "false"
  | JNumber n => pretty n
  | JString s => quote s
  | JArray items => "[" +:+ join "," (to_json <$> items) +:+ "]"
  | JObject fields =>
      "{" +:+
      join ","
        ((λ kv, quote kv.1 +:+ ":" +:+ kv.2) <$>
         merge_sort field_le ((λ kv, (kv.1, to_json kv.2)) <$> fields))
      +:+ "}"
  end.

Definition base64_alphabet : string :=
  "ABCDEFGHIJKLMNOPQRSTUVWXYZabcdefghijklmnopqrstuvwxyz0123456789+/".

Definition base64_digit (n : N) : ascii :=
  default "="%char (String.get (N.to_nat n) base64_alphabet).

(** Standard base64 with padding, three bytes to four digits. *)
Fixpoint base64_bytes (bytes : list N) : string :=
  match bytes with
  | [] => EmptyString
  | [a] =>
      String (base64_digit (N.shiftr a 2))
     (String (base64_digit (N.shiftl (N.land a 3) 4))
        "==")
  | [a; b] =>
      String (base64_digit (N.shiftr a 2))
     (String (base64_digit (N.lor (N.shiftl (N.land a 3) 4) (N.shiftr b 4)))
     (String (base64_digit (N.shiftl (N.land b 15) 2))
        "="))
  | a :: b :: c :: rest =>
      String (base64_digit (N.shiftr a 2))
     (String (base64_digit (N.lor (N.shiftl (N.land a 3) 4) (N.shiftr b 4)))
     (String (base64_digit (N.lor (N.shiftl (N.land b 15) 2) (N.shiftr c 6)))
     (String (base64_digit (N.land c 63))
        (base64_bytes rest))))
  end.

Definition base64 (text : string) : string :=
  base64_bytes (N_of_ascii <$> list_ascii_of_string text).

(** Modelled from the spec: [analytics_core.to_json_base64], the base64
    encoding of the canonical JSON text of the manifest. *)
Definition to_json_base64 (manifest : json) : string :=
  base64 (to_json manifest).

End analytics_core.

(** [to_json_base64] of [core.py] hands the manifest to the native module. *)
Definition to_json_base64 (manifest : analytics_core.json) : string :=
  analytics_core.to_json_base64 manifest.


(** ** Notions used in the further properties *)

(** The table a row opens, before its column is appended. *)
Definition new_table (r : Row) : Table.t :=
  Table.mk (compact_name r) (table_comment r) []
    (TableProperties.mk None (table_schema r) (table_name r)) EmptyString.

(** The table that the rows of one compact name are assembled into, [r]
    being the first of them and [rs] the later ones. *)
Definition table_from (r : Row) (rs : list Row) : Table.t :=
  Table.mk (compact_name r) (table_comment r) (column_of_row <$> r :: rs)
    (TableProperties.mk None (table_schema r) (table_name r)) EmptyString.

Definition headed (seen : list Row) (item : string * Table.t) : Prop :=
  ∃ r rs, rows_of item.1 seen = r :: rs ∧ item.2 = table_from r rs.

(** A row whose type string is not recognized, and the event logged for it. *)
Definition unknown_type (r : Row) : Prop :=
  CLICKHOUSE_TYPE_MAPPING !! lower (data_type r) = None.

Definition warning_of (r : Row) : LogEvent :=
  mkLogEvent WARNING ("Unknown ClickHouse data type: " +:+ data_type r).

(** A string without a dot. *)
Definition dot_free (s : string) : Prop :=
  "."%char ∉ list_ascii_of_string s.

(** An ASCII letter or digit. *)
Definition alphanumeric (c : ascii) : bool :=
  let n := N_of_ascii c in
  ((48 <=? n) && (n <=? 57) || (65 <=? n) && (n <=? 90)
   || (97 <=? n) && (n <=? 122))%N.

(** The sequence a key is made from: the positional values, then, when
    there are keyword arguments, the mark and their names and values. *)
Definition key_items (c : call) : list key_item :=
  (KVal <$> args c) ++
  match kwds c with
  | [] => []
  | _ => kwd_mark :: flat_map (λ item, [KVal (PStr item.1); KVal item.2]) (kwds c)
  end.

(** The handle [h] is the address of an object built from the values that
    the call [c] binds. *)
Definition built_for (s : cache_state) (c : call) (h : nat) : Prop :=
  ∃ a, bind_arguments c = Ok a ∧ heap s !! h = Some a.

(** Every entry of the dictionary holds an object built for a call of that
    key. *)
Definition cache_built (s : cache_state) : Prop :=
  ∀ key h, cache s !! key = Some h →
           ∃ c, _make_key c = Ok key ∧ built_for s c h.

(** What a thread that serves the call [c] holds at each of its stages. *)
Definition thread_built (s : cache_state) (c : call) (t : thread) : Prop :=
  match t with
  | Calling c' => c' = c
  | Missed c' key => c' = c ∧ _make_key c = Ok key
  | Storing key h => _make_key c = Ok key ∧ built_for s c h
  | Finished (Returned h) => built_for s c h
  | Finished (Raised _) => True
  end.

(** Every object of the heap of [s] is still at its address in [s']. *)
Definition heap_grows (s s' : cache_state) : Prop :=
  ∀ (h : nat) a, heap s !! h = Some a → heap s' !! h = Some a.

(** Every object of the heap is held by the dictionary. *)
Definition heap_cached (s : cache_state) : Prop :=
  ∀ h : nat, h < length (heap s) → ∃ key, cache s !! key = Some h.

Definition config_built (cs : list call) (cfg : config) : Prop :=
  cache_built (shared cfg) ∧ Forall2 (thread_built (shared cfg)) cs (threads cfg).

(** Whether a thread may still invoke the constructor, and the number of
    steps it has left. *)
Definition pending (t : thread) : nat :=
  match t with
  | Calling _ | Missed _ _ => 1
  | Storing _ _ | Finished _ => 0
  end.


(** The handles in the dictionary are addresses of the heap, and no two
    keys hold the same handle. *)
Definition handles_distinct (s : cache_state) : Prop :=
  (∀ key h, cache s !! key = Some h → h < length (heap s)) ∧
  (∀ k1 k2 h, cache s !! k1 = Some h → cache s !! k2 = Some h → k1 = k2).

(** * Properties *)

(** ** The type mapper *)

Section TypeMapper.

Lemma same_letter_lower a b : same_letter a b → ascii_lower a = ascii_lower b.
Proof.
  unfold same_letter, ascii_lower.
  intros [-> | [[Ha Hb] | [Hb Ha]]]; first done.
  - rewrite Hb.
    destruct (N.leb_spec 65 (N_of_ascii a)); last lia.
    destruct (N.leb_spec (N_of_ascii a) 90); last lia.
    destruct (N.leb_spec (N_of_ascii a + 32) 90); first lia.
    rewrite andb_false_r. simpl.
    by rewrite <- Hb, ascii_N_embedding.
  - rewrite Ha.
    destruct (N.leb_spec 65 (N_of_ascii b)); last lia.
    destruct (N.leb_spec (N_of_ascii b) 90); last lia.
    destruct (N.leb_spec (N_of_ascii b + 32) 90); first lia.
    rewrite andb_false_r. simpl.
    by rewrite <- Ha, ascii_N_embedding.
Qed.

Lemma same_modulo_case_lower s t : same_modulo_case s t → lower s = lower t.
Proof.
  induction 1 as [|a b s t Hab _ IH]; simpl; first done.
  by rewrite (same_letter_lower a b Hab), IH.
Qed.

Lemma mapping_keys_lower k ty :
  CLICKHOUSE_TYPE_MAPPING !! k = Some ty → lower k = k ∧ ty ≠ UNKNOWN.
Proof.
  intros Hk. apply elem_of_list_to_map_2 in Hk.
  repeat (apply elem_of_cons in Hk as [[= -> ->] | Hk]; first done).
  by apply elem_of_nil in Hk.
Qed.

Lemma transform_recognized s ty :
  CLICKHOUSE_TYPE_MAPPING !! lower s = Some ty →
  _transform_column_type s = (ty, []).
Proof.
  intros Hk. unfold _transform_column_type. rewrite Hk. simpl.
  destruct (mapping_keys_lower _ _ Hk) as [_ Hne].
  by destruct (decide (ty = UNKNOWN)).
Qed.

End TypeMapper.

(** C5: a recognized type string maps to the type of its table entry
    whatever the case of its letters: when [k] is a key of the table with
    type [ty], every string [s] that differs from [k] at most in letter case
    maps to [ty], as [k] itself does, and nothing is logged; in particular
    ["INT32"] and ["int32"] both map to [INT4]. *)
Theorem transform_column_type_case_insensitive (k s : string)
    (ty : RustAnalyticsEngineColumnType) :
  CLICKHOUSE_TYPE_MAPPING !! k = Some ty →
  same_modulo_case s k →
  _transform_column_type s = (ty, []) ∧
  _transform_column_type k = (ty, []) ∧
  _transform_column_type (upper s) = (ty, []) ∧
  _transform_column_type "INT32" = _transform_column_type "int32" ∧
  _transform_column_type "int32" = (INT4, []).
Proof.
  intros Hk Hs.
  destruct (mapping_keys_lower _ _ Hk) as [Hlow _].
  assert (Hls : lower s = k) by (by rewrite (same_modulo_case_lower _ _ Hs)).
  split_and!; try done.
  - apply transform_recognized. by rewrite Hls.
  - apply transform_recognized. by rewrite Hlow.
  - apply transform_recognized.
    replace (lower (upper s)) with (lower s); first by rewrite Hls.
    clear. induction s as [|c s IH]; simpl; first done.
    f_equal; last done.
    unfold ascii_lower, ascii_upper.
    destruct c as [[] [] [] [] [] [] [] []]; reflexivity.
Qed.

Lemma transform_column_type_case_insensitive_witness :
  CLICKHOUSE_TYPE_MAPPING !! "fixedstring" = Some CHAR ∧
  same_modulo_case "FixedString" "fixedstring" ∧
  _transform_column_type "FixedString" = (CHAR, []) ∧
  _transform_column_type "FIXEDSTRING" = (CHAR, []).
Proof.
  assert (Hk : CLICKHOUSE_TYPE_MAPPING !! "fixedstring" = Some CHAR)
    by reflexivity.
  assert (Hs : same_modulo_case "FixedString" "fixedstring").
  { repeat (apply smc_cons;
            [first [by left | right; left; simpl; lia | right; right; simpl; lia]|]).
    apply smc_nil. }
  destruct (transform_column_type_case_insensitive
              "fixedstring" "FixedString" CHAR Hk Hs) as (H1 & _ & H3 & _).
  by split_and!.
Defined.

(** C6: a string whose lower-case form is not a key of the table maps to
    [UNKNOWN], and exactly one event is logged, at warning level, whose
    message carries the string as it was given; the function returns (its
    result is a value, there is no path on which it raises). The empty
    string and ["array(string)"] are such strings. *)
Theorem transform_column_type_unknown (s : string) :
  CLICKHOUSE_TYPE_MAPPING !! lower s = None →
  _transform_column_type s =
    (UNKNOWN, [mkLogEvent WARNING ("Unknown ClickHouse data type: " +:+ s)]) ∧
  CLICKHOUSE_TYPE_MAPPING !! lower EmptyString = None ∧
  CLICKHOUSE_TYPE_MAPPING !! lower "array(string)" = None.
Proof.
  intros Hk. split_and!; try reflexivity.
  unfold _transform_column_type. by rewrite Hk.
Qed.

Lemma transform_column_type_unknown_witness :
  CLICKHOUSE_TYPE_MAPPING !! lower "Array(String)" = None ∧
  _transform_column_type "Array(String)" =
    (UNKNOWN, [mkLogEvent WARNING "Unknown ClickHouse data type: Array(String)"]).
Proof.
  assert (Hk : CLICKHOUSE_TYPE_MAPPING !! lower "Array(String)" = None)
    by reflexivity.
  split; first exact Hk.
  exact (proj1 (transform_column_type_unknown "Array(String)" Hk)).
Defined.

(** ** Table assembly *)

Section Assembly.

Lemma first_seen_elem_of x l : x ∈ first_seen l ↔ x ∈ l.
Proof.
  induction l as [|a l IH]; simpl; first done.
  rewrite !elem_of_cons, list_elem_of_filter, IH.
  destruct (decide (x = a)); naive_solver.
Qed.

Lemma first_seen_NoDup l : NoDup (first_seen l).
Proof.
  induction l as [|a l IH]; simpl; first by constructor.
  constructor.
  - rewrite list_elem_of_filter. naive_solver.
  - by apply NoDup_filter.
Qed.

Lemma first_seen_snoc l x :
  first_seen (l ++ [x]) =
    if decide (x ∈ l) then first_seen l else first_seen l ++ [x].
Proof.
  induction l as [|a l IH]; simpl; first done.
  rewrite IH.
  destruct (decide (x ∈ l)) as [Hin | Hout].
  - rewrite decide_True; [done | by right].
  - rewrite filter_app.
    destruct (decide (x = a)) as [-> | Hne].
    + rewrite decide_True; last by left.
      rewrite filter_cons_False; last naive_solver.
      by rewrite filter_nil, app_nil_r.
    + rewrite decide_False.
      * by rewrite filter_cons_True, filter_nil.
      * rewrite elem_of_cons. naive_solver.
Qed.

Lemma rows_of_snoc k rows r :
  rows_of k (rows ++ [r]) =
    rows_of k rows ++ (if decide (compact_name r = k) then [r] else []).
Proof.
  unfold rows_of. by rewrite filter_app.
Qed.

Lemma rows_of_unseen k seen :
  k ∉ compact_name <$> seen → rows_of k seen = [].
Proof.
  intros Hout. destruct (rows_of k seen) as [|r l] eqn:E; first done.
  assert (Hr : r ∈ rows_of k seen) by (rewrite E; left).
  apply list_elem_of_filter in Hr as [Heq Hin].
  exfalso. apply Hout. rewrite <- Heq. by apply list_elem_of_fmap_2.
Qed.

Context {V : Type}.
Implicit Types (d : PyDict.t V) (k : string) (v : V).

Lemma setitem_fresh k v d :
  k ∉ PyDict.keys d → PyDict.setitem k v d = d ++ [(k, v)].
Proof.
  induction d as [|[k' v'] d IH]; simpl; first done.
  unfold PyDict.keys. simpl. rewrite not_elem_of_cons. intros [Hne Hd].
  rewrite decide_False by done. f_equal. by apply IH.
Qed.

Lemma alter_fmap (f : V → V) k d :
  NoDup (PyDict.keys d) →
  PyDict.alter f k d =
    (λ item, (item.1, if decide (k = item.1) then f item.2 else item.2)) <$> d.
Proof.
  induction d as [|[k' v'] d IH]; simpl; first done.
  unfold PyDict.keys. simpl. rewrite NoDup_cons. intros [Hk' Hd].
  destruct (decide (k = k')) as [-> | Hne]; f_equal.
  - clear IH Hd. induction d as [|[k2 v2] d IH]; simpl; first done.
    simpl in Hk'. rewrite not_elem_of_cons in Hk'. destruct Hk' as [Hne Hk'].
    rewrite decide_False by done. f_equal. by apply IH.
  - by apply IH.
Qed.

Lemma keys_fmap_values (g : string * V → V) d :
  PyDict.keys ((λ item, (item.1, g item)) <$> d) = PyDict.keys d.
Proof.
  unfold PyDict.keys. rewrite <- list_fmap_compose. by apply list_fmap_ext.
Qed.

End Assembly.

Lemma first_seen_compact_snoc seen r :
  first_seen (compact_name <$> seen ++ [r]) =
    if decide (compact_name r ∈ first_seen (compact_name <$> seen))
    then first_seen (compact_name <$> seen)
    else first_seen (compact_name <$> seen) ++ [compact_name r].
Proof.
  rewrite fmap_app. change (compact_name <$> [r]) with [compact_name r].
  rewrite first_seen_snoc.
  destruct (decide (compact_name r ∈ compact_name <$> seen)) as [Hin | Hout].
  - rewrite decide_True; [done | by apply first_seen_elem_of].
  - rewrite decide_False; [done | by rewrite first_seen_elem_of].
Qed.

Lemma get_table_list_row_assembled seen d log r :
  assembled seen d →
  assembled (seen ++ [r]) (get_table_list_row (d, log) r).1 ∧
  (get_table_list_row (d, log) r).2 =
    log ++ (_transform_column_type (data_type r)).2.
Proof.
  intros [Hkeys Htabs]. unfold get_table_list_row.
  fold (compact_name r).
  destruct (_transform_column_type (data_type r)) as [ty events] eqn:Hty.
  simpl. split; last done.
  set (col := Column.mk (column_name r) ty false (column_comment r) None).
  assert (Hcol : col = column_of_row r).
  { unfold col, column_of_row. by rewrite Hty. }
  unfold PyDict.contains, assembled.
  rewrite first_seen_compact_snoc, <- Hkeys.
  destruct (decide (compact_name r ∈ PyDict.keys d)) as [Hin | Hout].
  - rewrite bool_decide_eq_true_2 by done. simpl.
    rewrite alter_fmap by (rewrite Hkeys; apply first_seen_NoDup).
    rewrite keys_fmap_values. split; first done.
    apply Forall_fmap. eapply Forall_impl; first exact Htabs.
    intros [k t] (Hn & Hc & Hp & Hcat). unfold table_of in *. simpl in *.
    rewrite rows_of_snoc, fmap_app.
    destruct (decide (compact_name r = k)); simpl.
    + by rewrite Hc, Hcol.
    + by rewrite Hc, app_nil_r.
  - rewrite bool_decide_eq_false_2 by done. simpl.
    rewrite setitem_fresh by done.
    rewrite alter_fmap.
    2:{ unfold PyDict.keys in *. rewrite fmap_app. simpl.
        apply NoDup_app. split_and!.
        - rewrite Hkeys. apply first_seen_NoDup.
        - intros x Hx Hx'. apply list_elem_of_singleton in Hx'. by subst.
        - apply NoDup_singleton. }
    rewrite keys_fmap_values.
    split; first by (unfold PyDict.keys; rewrite fmap_app).
    apply Forall_fmap, Forall_app. split.
    + apply Forall_forall. intros [k t] Hkt.
      rewrite Forall_forall in Htabs.
      destruct (Htabs _ Hkt) as (Hn & Hc & Hp & Hcat).
      unfold table_of in *. simpl in *.
      rewrite rows_of_snoc, fmap_app.
      destruct (decide (compact_name r = k)) as [Heq | Hne]; simpl.
      * exfalso. apply Hout. rewrite Heq.
        unfold PyDict.keys. by apply (list_elem_of_fmap_2 fst _ (k, t)).
      * by rewrite Hc, app_nil_r.
    + apply Forall_singleton. unfold table_of. simpl.
      rewrite decide_True by done. simpl.
      rewrite rows_of_snoc, decide_True by done.
      rewrite fmap_app. simpl. rewrite <- Hcol.
      split_and!; try done.
      rewrite rows_of_unseen; first done.
      by rewrite <- first_seen_elem_of, <- Hkeys.
Qed.

Lemma get_table_list_rows_assembled rows seen d log :
  assembled seen d →
  assembled (seen ++ rows) (foldl get_table_list_row (d, log) rows).1 ∧
  (foldl get_table_list_row (d, log) rows).2 = log ++ logged rows.
Proof.
  revert seen d log.
  induction rows as [|r rows IH]; intros seen d log Hinv.
  - cbn [foldl fst snd logged mbind list_bind]. by rewrite !app_nil_r.
  - destruct (get_table_list_row_assembled seen d log r Hinv) as [Hinv' Hlog].
    cbn [foldl].
    destruct (get_table_list_row (d, log) r) as [d' log'].
    cbn [fst snd] in Hinv', Hlog.
    destruct (IH (seen ++ [r]) d' log' Hinv') as [IH1 IH2].
    rewrite <- app_assoc in IH1. split; first exact IH1.
    rewrite IH2, Hlog. unfold logged. cbn [mbind list_bind].
    by rewrite app_assoc.
Qed.

Lemma get_table_list_assembled rows :
  ∃ d, get_table_list rows = (PyDict.values d, logged rows) ∧ assembled rows d.
Proof.
  assert (H0 : assembled [] ([] : PyDict.t Table.t)) by (by split).
  destruct (get_table_list_rows_assembled rows [] [] [] H0) as [Hinv Hlog].
  unfold get_table_list.
  revert Hinv Hlog.
  destruct (foldl _ _ rows) as [d log].
  cbn [fst snd app]. intros Hinv ->. by exists d.
Qed.

(** C4: the tables returned are one per distinct compact name, in the order
    in which the names are first seen among the rows; the columns of each
    table are those of the rows of its name, in arrival order; no two tables
    share a name. The rows [(s1,t1,a,int32)], [(s1,t1,b,string)] give one
    table ["s1.t1"] with the columns [a : INT4], [b : VARCHAR], whatever
    their comments. *)
Theorem get_table_list_first_seen_order (rows : list Row)
    (tc1 tc2 ca cb : string) :
  let tables := (get_table_list rows).1 in
  Table.name <$> tables = first_seen (compact_name <$> rows) ∧
  NoDup (Table.name <$> tables) ∧
  (∀ k, k ∈ Table.name <$> tables ↔ k ∈ compact_name <$> rows) ∧
  Forall (λ t, Table.columns t = column_of_row <$> rows_of (Table.name t) rows)
         tables ∧
  (get_table_list [mkRow "s1" "t1" tc1 "a" "int32" ca;
                   mkRow "s1" "t1" tc2 "b" "string" cb]).1 =
    [Table.mk "s1.t1" tc1
       [Column.mk "a" INT4 false ca None; Column.mk "b" VARCHAR false cb None]
       (TableProperties.mk None "s1" "t1") EmptyString].
Proof.
  intros tables.
  destruct (get_table_list_assembled rows) as (d & Hd & Hkeys & Htabs).
  assert (Hnames : Table.name <$> tables = PyDict.keys d).
  { unfold tables. rewrite Hd. cbn [fst]. unfold PyDict.values, PyDict.keys.
    rewrite <- list_fmap_compose. apply Forall_fmap_ext_1.
    eapply Forall_impl; first exact Htabs.
    by intros item (Hn & _). }
  split_and!.
  - by rewrite Hnames.
  - rewrite Hnames, Hkeys. apply first_seen_NoDup.
  - intros k. by rewrite Hnames, Hkeys, first_seen_elem_of.
  - unfold tables. rewrite Hd. cbn [fst]. unfold PyDict.values.
    apply Forall_fmap. eapply Forall_impl; first exact Htabs.
    intros [k t] (Hn & Hc & _). simpl in *. by rewrite Hn.
  - reflexivity.
Qed.

Lemma columns_distinct rows k :
  NoDup ((λ r, (compact_name r, column_name r)) <$> rows) →
  NoDup (column_name <$> rows_of k rows).
Proof.
  induction rows as [|r rows IH]; first by constructor.
  rewrite fmap_cons, NoDup_cons. intros [Hr Hrows].
  unfold rows_of. rewrite filter_cons.
  destruct (decide (compact_name r = k)) as [Heq | Hne]; last by apply IH.
  rewrite fmap_cons. apply NoDup_cons. split; last by apply IH.
  intros Hin. apply Hr.
  apply list_elem_of_fmap in Hin as (r' & Hname & Hr').
  apply list_elem_of_filter in Hr' as [Hk Hr'].
  apply list_elem_of_fmap. exists r'. split; last done.
  by rewrite Hname, Heq, Hk.
Qed.

(** C7, as it holds: when no two rows carry the same compact table name and
    the same column name, no two columns of a returned table share a name. *)
Theorem get_table_list_column_names_distinct (rows : list Row) :
  NoDup ((λ r, (compact_name r, column_name r)) <$> rows) →
  Forall (λ t, NoDup (Column.name <$> Table.columns t)) (get_table_list rows).1.
Proof.
  intros Hnd.
  destruct (get_table_list_assembled rows) as (d & Hd & Hkeys & Htabs).
  rewrite Hd. cbn [fst]. unfold PyDict.values.
  apply Forall_fmap. eapply Forall_impl; first exact Htabs.
  intros [k t] (_ & Hc & _). simpl in *. rewrite Hc, <- list_fmap_compose.
  by apply (columns_distinct rows k).
Qed.

Lemma get_table_list_column_names_distinct_witness :
  let rows := [mkRow "s1" "t1" "orders" "a" "int32" "key";
               mkRow "s1" "t1" "orders" "b" "string" "label";
               mkRow "s1" "t2" "items" "a" "int64" "key"] in
  NoDup ((λ r, (compact_name r, column_name r)) <$> rows) ∧
  Forall (λ t, NoDup (Column.name <$> Table.columns t)) (get_table_list rows).1.
Proof.
  intros rows.
  assert (Hnd : NoDup ((λ r, (compact_name r, column_name r)) <$> rows)).
  { apply (bool_decide_unpack _). vm_compute. exact I. }
  split; first exact Hnd.
  exact (get_table_list_column_names_distinct rows Hnd).
Defined.

(** C7, as stated, fails: the databases [a.b] and [a], holding the tables
    [c] and [b.c], share the compact name ["a.b.c"]; their columns are put
    into one table, which then has two columns named [id]. *)
Lemma get_table_list_shared_column_name :
  let rows := [mkRow "a.b" "c" "first" "id" "int32" "key";
               mkRow "a" "b.c" "second" "id" "int64" "key"] in
  (get_table_list rows).1 =
    [Table.mk "a.b.c" "first"
       [Column.mk "id" INT4 false "key" None; Column.mk "id" INT8 false "key" None]
       (TableProperties.mk None "a.b" "c") EmptyString] ∧
  ¬ Forall (λ t, NoDup (Column.name <$> Table.columns t)) (get_table_list rows).1.
Proof.
  intros rows.
  assert (E : (get_table_list rows).1 =
    [Table.mk "a.b.c" "first"
       [Column.mk "id" INT4 false "key" None; Column.mk "id" INT8 false "key" None]
       (TableProperties.mk None "a.b" "c") EmptyString]) by reflexivity.
  split; first exact E.
  rewrite E. intros H. apply Forall_inv in H. cbn in H.
  apply NoDup_cons in H as [Hni _]. apply Hni. left.
Qed.

(** C10: whatever the rows, every returned column is nullable
    ([notNull = False]) and has no properties, and every returned table has
    the empty primary key and no catalog. *)
Theorem get_table_list_fixed_fields (rows : list Row) :
  Forall (λ t,
    Table.primaryKey t = EmptyString ∧
    TableProperties.catalog (Table.properties t) = None ∧
    Forall (λ c, Column.notNull c = false ∧ Column.properties c = None)
           (Table.columns t))
    (get_table_list rows).1.
Proof.
  destruct (get_table_list_assembled rows) as (d & Hd & Hkeys & Htabs).
  rewrite Hd. cbn [fst]. unfold PyDict.values.
  apply Forall_fmap. eapply Forall_impl; first exact Htabs.
  intros [k t] (_ & Hc & Hp & Hcat). simpl in *.
  split_and!; try done.
  rewrite Hc. apply Forall_fmap, Forall_forall. by intros r _.
Qed.

(** ** The session cache *)

Section SessionCache.

Variable SessionContext : constructor.

Ltac case_call :=
  repeat match goal with
  | |- context [match ?x with _ => _ end] => destruct x eqn:?
  | H : context [match ?x with _ => _ end] |- _ => destruct x eqn:?
  end.

Lemma get_session_context_hit c s key h :
  _make_key c = Ok key → cache s !! key = Some h →
  get_session_context SessionContext c s = (Returned h, count_hit s).
Proof. intros Hk Hc. unfold get_session_context. by rewrite Hk, Hc. Qed.

Lemma get_session_context_miss c s key a :
  _make_key c = Ok key → cache s !! key = None →
  bind_arguments c = Ok a →
  SessionContext (length (invocations s)) a = None →
  get_session_context SessionContext c s =
    (Returned (length (heap s)), store_new key a s).
Proof.
  intros Hk Hc Hb Hctor. unfold get_session_context.
  by rewrite Hk, Hc, Hb, Hctor.
Qed.

Lemma get_session_context_returned c s h s1 :
  get_session_context SessionContext c s = (Returned h, s1) →
  ∃ key, _make_key c = Ok key ∧ cache s1 !! key = Some h.
Proof.
  unfold get_session_context. intros H.
  case_call; simplify_eq; eexists; (split; first done); simpl.
  - done.
  - apply lookup_insert_eq.
Qed.

(** An entry, once stored, stays, and keeps its handle. *)
Lemma get_session_context_keeps c s o s1 key h :
  get_session_context SessionContext c s = (o, s1) →
  cache s !! key = Some h → cache s1 !! key = Some h.
Proof.
  unfold get_session_context. intros H Hc.
  case_call; simplify_eq; simpl; try done.
  rewrite lookup_insert_ne; first done.
  intros ->. congruence.
Qed.

Lemma get_session_context_seq_keeps cs s os s1 key h :
  get_session_context_seq SessionContext cs s = (os, s1) →
  cache s !! key = Some h → cache s1 !! key = Some h.
Proof.
  revert s os s1. induction cs as [|c cs IH]; intros s os s1 H Hc.
  - simpl in H. by simplify_eq.
  - cbn [get_session_context_seq] in H.
    destruct (get_session_context SessionContext c s) as [o s'] eqn:Hstep.
    destruct (get_session_context_seq SessionContext cs s') as [os' s''] eqn:Hrest.
    simplify_eq. eapply IH; first done.
    by eapply get_session_context_keeps.
Qed.

(** C1, as it holds: when a call returned a handle, every later call that
    passes the same arguments in the same way (the same positional values
    and the same keyword arguments, equal by value) returns that very
    handle, whatever calls were made in between, and the constructor is
    not invoked: the call changes nothing but the hit counter. *)
Theorem get_session_context_same_call (c c' : call) (between : list call)
    (s s1 s2 : cache_state) (h : nat) (os : list outcome) :
  get_session_context SessionContext c s = (Returned h, s1) →
  get_session_context_seq SessionContext between s1 = (os, s2) →
  args c' = args c → kwds c' = kwds c →
  get_session_context SessionContext c' s2 = (Returned h, count_hit s2) ∧
  invocations (count_hit s2) = invocations s2 ∧
  heap (count_hit s2) = heap s2.
Proof.
  intros Hfirst Hbetween Hargs Hkwds.
  assert (c' = c) as -> by (destruct c, c'; simpl in *; congruence).
  destruct (get_session_context_returned _ _ _ _ Hfirst) as (key & Hkey & Hc).
  split; last done.
  eapply get_session_context_hit; first done.
  by eapply get_session_context_seq_keeps.
Qed.

(** C2: when a call raises because the constructor, invoked with the
    arguments [a], raised, the dictionary and the heap are as before the
    call and hold nothing under the key of the call (of the wrapper's
    state only the count of misses has grown); the next call with the
    same arguments invokes the constructor again, and returns a new
    handle or raises according to what the constructor does this time. *)
Theorem get_session_context_failure_not_cached (c : call)
    (s s1 : cache_state) (a : pyval * pyval * pyval) (e : exn) :
  get_session_context SessionContext c s = (Raised e, s1) →
  invocations s1 = invocations s ++ [a] →
  cache s1 = cache s ∧ heap s1 = heap s ∧
  hits s1 = hits s ∧ misses s1 = S (misses s) ∧
  (∀ key, _make_key c = Ok key → cache s1 !! key = None) ∧
  SessionContext (length (invocations s)) a = Some e ∧
  ∃ s2,
    get_session_context SessionContext c s1 =
      (match SessionContext (length (invocations s1)) a with
       | Some e' => Raised e'
       | None => Returned (length (heap s1))
       end, s2) ∧
    invocations s2 = invocations s1 ++ [a].
Proof.
  unfold get_session_context. intros Hcall Hinv.
  destruct (_make_key c) as [key|] eqn:Hkey.
  2:{ simplify_eq. apply (f_equal length) in Hinv.
      rewrite length_app in Hinv. simpl in Hinv. lia. }
  destruct (cache s !! key) as [h|] eqn:Hc; first by simplify_eq.
  destruct (bind_arguments c) as [a'|] eqn:Hbind.
  2:{ simplify_eq. simpl in Hinv. apply (f_equal length) in Hinv.
      rewrite length_app in Hinv. simpl in Hinv. lia. }
  destruct (SessionContext (length (invocations s)) a') as [e'|] eqn:Hctor;
    last by simplify_eq.
  simplify_eq. simpl in *. apply app_inv_head in Hinv. simplify_eq.
  split_and!; try done.
  - by intros key' [= <-].
  - rewrite Hc.
    destruct (SessionContext (length (invocations s ++ [a])) a);
      by eexists.
Qed.

(** C9: the call that omits [properties] and the call that passes [None]
    for it bind the parameters to the same three values, yet their keys
    differ: from a state that holds neither key, the constructor is
    invoked for each call, and the two calls return distinct handles, each
    stored under its own key. *)
Theorem get_session_context_default_not_shared (m fp : pyval)
    (s : cache_state) :
  let omitted := mkCall [m; fp] [] in
  let explicit := mkCall [m; fp; PNone] [] in
  let a := (m, fp, PNone) in
  hashable m = true → hashable fp = true →
  cache s !! KHashedSeq [KVal m; KVal fp] = None →
  cache s !! KHashedSeq [KVal m; KVal fp; KVal PNone] = None →
  SessionContext (length (invocations s)) a = None →
  SessionContext (S (length (invocations s))) a = None →
  bind_arguments omitted = Ok a ∧ bind_arguments explicit = Ok a ∧
  _make_key omitted ≠ _make_key explicit ∧
  ∃ s1 s2,
    get_session_context SessionContext omitted s = (Returned (length (heap s)), s1) ∧
    get_session_context SessionContext explicit s1 = (Returned (S (length (heap s))), s2) ∧
    invocations s2 = invocations s ++ [a; a] ∧
    cache s2 !! KHashedSeq [KVal m; KVal fp] = Some (length (heap s)) ∧
    cache s2 !! KHashedSeq [KVal m; KVal fp; KVal PNone] =
      Some (S (length (heap s))).
Proof.
  intros omitted explicit a Hm Hfp Hc1 Hc2 Hctor1 Hctor2.
  assert (Hk1 : _make_key omitted = Ok (KHashedSeq [KVal m; KVal fp])).
  { unfold _make_key. simpl. destruct m; simpl in *; by rewrite ?Hfp. }
  assert (Hk2 : _make_key explicit = Ok (KHashedSeq [KVal m; KVal fp; KVal PNone])).
  { unfold _make_key. simpl. destruct m; simpl in *; by rewrite ?Hfp. }
  split_and!; try done.
  - rewrite Hk1, Hk2. by intros [=].
  - exists (store_new (KHashedSeq [KVal m; KVal fp]) a s).
    exists (store_new (KHashedSeq [KVal m; KVal fp; KVal PNone]) a
              (store_new (KHashedSeq [KVal m; KVal fp]) a s)).
    split_and!.
    + by apply get_session_context_miss.
    + rewrite (get_session_context_miss explicit _
                 (KHashedSeq [KVal m; KVal fp; KVal PNone]) a); try done.
      * simpl. by rewrite length_app, Nat.add_1_r.
      * simpl. by rewrite lookup_insert_ne by (by intros [=]).
      * simpl. by rewrite length_app, Nat.add_1_r.
    + simpl. by rewrite <- app_assoc.
    + simpl. rewrite lookup_insert_ne by (by intros [=]).
      apply lookup_insert_eq.
    + simpl. rewrite length_app, Nat.add_1_r. apply lookup_insert_eq.
Qed.

End SessionCache.

Lemma get_session_context_same_call_witness :
  let c := mkCall [PStr "M1"; PStr "fp"] [] in
  let other := mkCall [PStr "M2"; PStr "fp"] [("properties", PNone)] in
  ∃ s1 os s2,
    get_session_context always_succeeds c initial_state = (Returned 0, s1) ∧
    get_session_context_seq always_succeeds [other; c] s1 = (os, s2) ∧
    get_session_context always_succeeds c s2 = (Returned 0, count_hit s2) ∧
    invocations (count_hit s2) = invocations s2.
Proof.
  intros c other.
  destruct (get_session_context always_succeeds c initial_state)
    as [o s1] eqn:H1.
  destruct (get_session_context_seq always_succeeds [other; c] s1)
    as [os s2] eqn:H2.
  assert (Ho : o = Returned 0) by (by injection H1 as <- _).
  subst o. exists s1, os, s2.
  destruct (get_session_context_same_call always_succeeds c c [other; c]
              initial_state s1 s2 0 os H1 H2 eq_refl eq_refl) as (Hc & Hi & _).
  by split_and!.
Defined.

(** C1, as stated, fails: the calls [("M1", "fp")] and [("M1", "fp", None)]
    have the same three components, the second with the default written
    out; the second call invokes the constructor again and returns another
    handle. *)
Lemma get_session_context_equal_components_new_handle :
  ¬ (∀ (SessionContext : constructor) (c1 c2 : call)
       (s s1 s2 : cache_state) (h1 : nat) (o2 : outcome),
       bind_arguments c1 = bind_arguments c2 →
       get_session_context SessionContext c1 s = (Returned h1, s1) →
       get_session_context SessionContext c2 s1 = (o2, s2) →
       o2 = Returned h1 ∧ invocations s2 = invocations s1).
Proof.
  intros H.
  destruct (H always_succeeds
              (mkCall [PStr "M1"; PStr "fp"] [])
              (mkCall [PStr "M1"; PStr "fp"; PNone] [])
              initial_state _ _ _ _ eq_refl eq_refl eq_refl) as [Ho _].
  discriminate Ho.
Qed.

Lemma get_session_context_failure_not_cached_witness :
  let c := mkCall [PStr "M1"; PStr "fp"] [] in
  ∃ s1 s2,
    get_session_context fails_once c initial_state =
      (Raised (EngineError "engine unavailable"), s1) ∧
    cache s1 = ∅ ∧
    get_session_context fails_once c s1 = (Returned 0, s2) ∧
    invocations s2 = [(PStr "M1", PStr "fp", PNone); (PStr "M1", PStr "fp", PNone)].
Proof.
  intros c.
  destruct (get_session_context fails_once c initial_state) as [o s1] eqn:H1.
  assert (Ho : o = Raised (EngineError "engine unavailable"))
    by (by injection H1 as <- _).
  assert (Hi : invocations s1 =
                 invocations initial_state ++ [(PStr "M1", PStr "fp", PNone)])
    by (by injection H1 as _ <-).
  subst o.
  destruct (get_session_context_failure_not_cached fails_once c initial_state s1
              (PStr "M1", PStr "fp", PNone) (EngineError "engine unavailable")
              H1 Hi) as (Hc & Hh & _ & _ & _ & _ & s2 & Hcall & Hinv).
  exists s1, s2. rewrite Hi, Hh in Hcall. rewrite Hi in Hinv.
  by split_and!.
Defined.

Lemma get_session_context_default_not_shared_witness :
  ∃ s1 s2,
    get_session_context always_succeeds (mkCall [PStr "M1"; PStr "fp"] [])
      initial_state = (Returned 0, s1) ∧
    get_session_context always_succeeds (mkCall [PStr "M1"; PStr "fp"; PNone] [])
      s1 = (Returned 1, s2) ∧
    length (invocations s2) = 2.
Proof.
  destruct (get_session_context_default_not_shared always_succeeds
              (PStr "M1") (PStr "fp") initial_state
              eq_refl eq_refl eq_refl eq_refl eq_refl eq_refl)
    as (_ & _ & _ & s1 & s2 & H1 & H2 & Hi & _).
  exists s1, s2. split_and!; try done. by rewrite Hi.
Defined.

(** ** Callers in several threads *)

Section Threads.

Variable SessionContext : constructor.

Lemma schedule_step_at cfg j t :
  threads cfg !! j = Some t →
  schedule_step SessionContext cfg j =
    mkConfig (thread_step SessionContext (shared cfg) t).1
             (<[j := (thread_step SessionContext (shared cfg) t).2]> (threads cfg)).
Proof.
  intros H. unfold schedule_step. rewrite H.
  by destruct (thread_step SessionContext (shared cfg) t).
Qed.

(** The three steps of one caller, taken with no step of another caller
    in between, are one call of the wrapper. *)
Lemma run_serial_call cfg j c :
  threads cfg !! j = Some (Calling c) →
  run SessionContext [j; j; j] cfg =
    mkConfig (get_session_context SessionContext c (shared cfg)).2
      (<[j := Finished (get_session_context SessionContext c (shared cfg)).1]>
         (threads cfg)).
Proof.
  intros Hj.
  assert (Hlt : j < length (threads cfg)) by (by eapply lookup_lt_Some).
  assert (Hnext : ∀ s t, threads (mkConfig s (<[j := t]> (threads cfg))) !! j = Some t).
  { intros s t. by apply list_lookup_insert_eq. }
  unfold run. cbn [foldl].
  rewrite (schedule_step_at cfg j _ Hj).
  unfold get_session_context. cbn [thread_step].
  destruct (_make_key c) as [key|e]; cbn [fst snd].
  - destruct (cache (shared cfg) !! key) as [h|] eqn:Hc; cbn [fst snd].
    + rewrite (schedule_step_at _ j _ (Hnext _ _)).
      cbn [thread_step fst snd shared threads].
      rewrite list_insert_insert_eq.
      rewrite (schedule_step_at _ j _ (Hnext _ _)).
      cbn [thread_step fst snd shared threads].
      by rewrite list_insert_insert_eq.
    + rewrite (schedule_step_at _ j _ (Hnext _ _)).
      cbn [thread_step fst snd shared threads cache hits misses heap invocations].
      destruct (bind_arguments c) as [a|e]; cbn [fst snd].
      * destruct (SessionContext (length (invocations (shared cfg))) a);
          cbn [fst snd]; rewrite list_insert_insert_eq;
          rewrite (schedule_step_at _ j _ (Hnext _ _));
          cbn [thread_step fst snd shared threads cache hits misses heap
               invocations];
          by rewrite list_insert_insert_eq.
      * rewrite list_insert_insert_eq.
        rewrite (schedule_step_at _ j _ (Hnext _ _)).
        cbn [thread_step fst snd shared threads].
        by rewrite list_insert_insert_eq.
  - rewrite (schedule_step_at _ j _ (Hnext _ _)).
    cbn [thread_step fst snd shared threads].
    rewrite list_insert_insert_eq.
    rewrite (schedule_step_at _ j _ (Hnext _ _)).
    cbn [thread_step fst snd shared threads].
    rewrite list_insert_insert_eq. by destruct cfg.
Qed.

Lemma run_app sched1 sched2 cfg :
  run SessionContext (sched1 ++ sched2) cfg =
    run SessionContext sched2 (run SessionContext sched1 cfg).
Proof. unfold run. by rewrite foldl_app. Qed.

(** Once the key is stored, callers that go one after another all hit. *)
Lemma run_serial_hits c key h rest :
  _make_key c = Ok key → NoDup rest →
  ∀ cfg,
    cache (shared cfg) !! key = Some h →
    (∀ j, j ∈ rest → threads cfg !! j = Some (Calling c)) →
    let cfg' := run SessionContext (serial rest) cfg in
    cache (shared cfg') !! key = Some h ∧
    invocations (shared cfg') = invocations (shared cfg) ∧
    heap (shared cfg') = heap (shared cfg) ∧
    ∀ j, threads cfg' !! j =
           if decide (j ∈ rest) then Some (Finished (Returned h))
           else threads cfg !! j.
Proof.
  intros Hkey. induction rest as [|i rest IH]; intros Hnd cfg Hc Hcalling.
  - cbn. split_and!; try done.
  - apply NoDup_cons in Hnd as [Hi Hnd].
    assert (Hlt : i < length (threads cfg)).
    { eapply lookup_lt_Some, Hcalling. by left. }
    change (serial (i :: rest)) with ([i; i; i] ++ serial rest).
    cbn zeta. rewrite run_app.
    rewrite (run_serial_call cfg i c) by (apply Hcalling; by left).
    rewrite (get_session_context_hit SessionContext c _ key h Hkey Hc).
    cbn [fst snd].
    edestruct (IH Hnd (mkConfig (count_hit (shared cfg))
                 (<[i := Finished (Returned h)]> (threads cfg))))
      as (Hc' & Hi' & Hh' & Hts').
    { done. }
    { intros j Hj. cbn [threads].
      rewrite list_lookup_insert_ne by (intros ->; done).
      apply Hcalling. by right. }
    split_and!; try done.
    intros j. rewrite Hts'. cbn [threads].
    destruct (decide (j ∈ rest)) as [Hj | Hj].
    + rewrite decide_True; [done | by right].
    + destruct (decide (j = i)) as [-> | Hne].
      * rewrite decide_True by (by left).
        by apply list_lookup_insert_eq.
      * rewrite decide_False by (rewrite elem_of_cons; naive_solver).
        by apply list_lookup_insert_ne.
Qed.

(** C3, as it holds: when the callers of one unseen key go one after
    another, in any order, each finishing its call before the next begins,
    and the construction succeeds, the constructor is invoked exactly once
    and every caller receives the handle of the object it built. *)
Theorem serial_callers_construct_once (c : call) (key : cache_key)
    (a : pyval * pyval * pyval) (s : cache_state) (n : nat)
    (order : list nat) :
  _make_key c = Ok key →
  cache s !! key = None →
  bind_arguments c = Ok a →
  SessionContext (length (invocations s)) a = None →
  order ≡ₚ seq 0 n →
  0 < n →
  let cfg :=
    run SessionContext (serial order) (mkConfig s (replicate n (Calling c))) in
  threads cfg = replicate n (Finished (Returned (length (heap s)))) ∧
  invocations (shared cfg) = invocations s ++ [a] ∧
  heap (shared cfg) = heap s ++ [a] ∧
  cache (shared cfg) !! key = Some (length (heap s)).
Proof.
  intros Hkey Hc Hbind Hctor Hperm Hn.
  assert (Hnd : NoDup order) by (rewrite Hperm; apply NoDup_seq).
  assert (Hin : ∀ j, j ∈ order ↔ j < n).
  { intros j. rewrite Hperm, elem_of_seq. lia. }
  destruct order as [|i rest].
  { apply Permutation_nil_l in Hperm. destruct n; [lia | done]. }
  apply NoDup_cons in Hnd as [Hi Hnd].
  assert (Hilt : i < n) by (apply Hin; by left).
  change (serial (i :: rest)) with ([i; i; i] ++ serial rest).
  cbn zeta. rewrite run_app.
  rewrite (run_serial_call _ i c) by (by apply lookup_replicate_2).
  cbn [shared threads].
  rewrite (get_session_context_miss SessionContext c s key a Hkey Hc Hbind Hctor).
  cbn [fst snd].
  edestruct (run_serial_hits c key (length (heap s)) rest Hkey Hnd
               (mkConfig (store_new key a s)
                  (<[i := Finished (Returned (length (heap s)))]>
                     (replicate n (Calling c)))))
    as (Hc' & Hi' & Hh' & Hts').
  { cbn. apply lookup_insert_eq. }
  { intros j Hj. cbn [threads].
    rewrite list_lookup_insert_ne by (intros ->; done).
    apply lookup_replicate_2, Hin. by right. }
  split_and!; try done.
  apply list_eq. intros j. rewrite Hts'. cbn [threads].
  destruct (decide (j ∈ rest)) as [Hj | Hj].
  - symmetry. apply lookup_replicate_2, Hin. by right.
  - destruct (decide (j = i)) as [-> | Hne].
    + rewrite list_lookup_insert_eq by (by rewrite length_replicate).
      symmetry. by apply lookup_replicate_2.
    + rewrite list_lookup_insert_ne by done.
      assert (Hge : (n ≤ j)%nat).
      { destruct (decide (j < n)) as [Hlt | ?]; last lia.
        apply Hin, elem_of_cons in Hlt. naive_solver. }
      transitivity (@None thread).
      * by apply lookup_replicate_None.
      * symmetry. by apply lookup_replicate_None.
Qed.

End Threads.

Lemma serial_callers_construct_once_witness :
  let c := mkCall [PStr "M1"; PStr "fp"] [] in
  let cfg :=
    run always_succeeds (serial [2; 0; 1])
        (mkConfig initial_state (replicate 3 (Calling c))) in
  threads cfg = replicate 3 (Finished (Returned 0)) ∧
  invocations (shared cfg) = [(PStr "M1", PStr "fp", PNone)].
Proof.
  intros c cfg.
  assert (Hperm : [2; 0; 1] ≡ₚ seq 0 3).
  { apply (bool_decide_unpack _). vm_compute. exact I. }
  destruct (serial_callers_construct_once always_succeeds c
              (KHashedSeq [KVal (PStr "M1"); KVal (PStr "fp")])
              (PStr "M1", PStr "fp", PNone) initial_state 3 [2; 0; 1]
              eq_refl eq_refl eq_refl eq_refl Hperm ltac:(lia))
    as (Hts & Hinv & _).
  by split.
Defined.

(** C3, as stated, fails: two callers of the same unseen key whose steps
    alternate both miss, both invoke the constructor, and receive two
    distinct handles; the second store replaces the first. *)
Lemma interleaved_callers_construct_twice :
  let c := mkCall [PStr "M1"; PStr "fp"] [] in
  let cfg :=
    run always_succeeds [0; 1; 0; 1; 0; 1]
        (mkConfig initial_state [Calling c; Calling c]) in
  threads cfg = [Finished (Returned 0); Finished (Returned 1)] ∧
  invocations (shared cfg) =
    [(PStr "M1", PStr "fp", PNone); (PStr "M1", PStr "fp", PNone)] ∧
  cache (shared cfg) !! KHashedSeq [KVal (PStr "M1"); KVal (PStr "fp")] = Some 1.
Proof. by vm_compute. Qed.

(** ** The manifest codec *)

Section ManifestCodec.
Import analytics_core.

Lemma string_compare_lt_trans (a b c : string) :
  String.compare a b = Lt → String.compare b c = Lt → String.compare a c = Lt.
Proof.
  revert b c. induction a as [|x a IH]; intros [|y b] [|z c]; simpl; try done.
  unfold Ascii.compare.
  destruct (N.compare_spec (N_of_ascii x) (N_of_ascii y)) as [Hxy|Hxy|Hxy],
           (N.compare_spec (N_of_ascii y) (N_of_ascii z)) as [Hyz|Hyz|Hyz];
    try done; intros Hab Hbc.
  - rewrite Hxy, Hyz, N.compare_refl. by eapply IH.
  - rewrite Hxy. by apply N.compare_lt_iff in Hyz as ->.
  - rewrite <- Hyz. by apply N.compare_lt_iff in Hxy as ->.
  - assert (Hxz : (N_of_ascii x < N_of_ascii z)%N) by lia.
    by apply N.compare_lt_iff in Hxz as ->.
Qed.

Lemma string_leb_trans (a b c : string) :
  String.leb a b = true → String.leb b c = true → String.leb a c = true.
Proof.
  unfold String.leb.
  destruct (String.compare a b) eqn:Hab; try done;
    destruct (String.compare b c) eqn:Hbc; try done; intros _ _.
  - apply String.compare_eq_iff in Hab as ->. by rewrite Hbc.
  - apply String.compare_eq_iff in Hab as ->. by rewrite Hbc.
  - apply String.compare_eq_iff in Hbc as <-. by rewrite Hab.
  - by rewrite (string_compare_lt_trans a b c).
Qed.

Local Instance field_le_trans : Transitive field_le.
Proof. intros a b c. unfold field_le. apply string_leb_trans. Qed.

Local Instance field_le_total : Total field_le.
Proof. intros a b. unfold field_le. apply String.leb_total. Qed.

Lemma json_induction (P : json → Prop) :
  P JNull → (∀ b, P (JBool b)) → (∀ n, P (JNumber n)) → (∀ s, P (JString s)) →
  (∀ items, Forall P items → P (JArray items)) →
  (∀ fields, Forall (λ kv, P kv.2) fields → P (JObject fields)) →
  ∀ j, P j.
Proof.
  intros Hnull Hbool Hnum Hstr Harr Hobj.
  fix IH 1.
  intros [|b|n|s|items|fields];
    [exact Hnull | apply Hbool | apply Hnum | apply Hstr | | ].
  - apply Harr. induction items as [|j items IHitems];
      constructor; [apply IH | exact IHitems].
  - apply Hobj. induction fields as [|[k j] fields IHfields];
      constructor; [apply IH | exact IHfields].
Qed.

Lemma fmap_Permutation_transfer {A B C : Type} (f : A → B) (g : A → C)
    (l1 l2 : list A) :
  f <$> l1 ≡ₚ f <$> l2 →
  (∀ x y, x ∈ l1 → y ∈ l2 → f x = f y → g x = g y) →
  g <$> l1 ≡ₚ g <$> l2.
Proof.
  revert l2. induction l1 as [|x l1 IH]; intros l2 Hp Hfg.
  - apply Permutation_nil_l in Hp. symmetry in Hp.
    by apply fmap_nil_inv in Hp as ->.
  - assert (Hx : f x ∈ f <$> l2) by (rewrite <- Hp; left).
    apply list_elem_of_fmap in Hx as (y & Hxy & Hy).
    apply list_elem_of_split in Hy as (la & lb & ->).
    rewrite fmap_app, !fmap_cons, <- Hxy, <- Permutation_middle in Hp.
    apply Permutation_cons_inv in Hp. rewrite <- fmap_app in Hp.
    rewrite fmap_app, !fmap_cons, <- Permutation_middle, <- fmap_app.
    rewrite <- (Hfg x y); [|by left|set_solver|done].
    constructor. apply IH; first done.
    intros x' y' Hx' Hy'. apply Hfg; first by right.
    set_solver.
Qed.

Lemma sorted_fields_unique (l1 l2 : list (string * string)) :
  NoDup l1.*1 → l1 ≡ₚ l2 → merge_sort field_le l1 = merge_sort field_le l2.
Proof.
  intros Hnd Hp.
  apply (StronglySorted_unique_strong field_le).
  - intros [k1 v1] [k2 v2] H1 H2 H12 H21.
    rewrite merge_sort_Permutation in H1, H2. rewrite <- Hp in H2.
    unfold field_le in *. simpl in *.
    assert (k1 = k2) as <- by (by apply String.leb_antisym).
    f_equal.
    apply (elem_of_list_to_map_1 (M := gmap string)) in H1, H2; try done.
    congruence.
  - apply StronglySorted_merge_sort; apply _.
  - apply StronglySorted_merge_sort; apply _.
  - by rewrite !merge_sort_Permutation.
Qed.

Lemma to_json_content (m1 : json) :
  ∀ m2, well_formed m1 = true → well_formed m2 = true →
        logical_content m1 = logical_content m2 → to_json m1 = to_json m2.
Proof.
  induction m1 as [|b|n|s|items IH|fields IH] using json_induction;
    intros [|b2|n2|s2|items2|fields2] Hwf1 Hwf2 Hc; try done;
    cbn [logical_content] in Hc; simplify_eq; try done.
  - cbn [to_json]. do 2 f_equal. f_equal.
    cbn [well_formed] in Hwf1, Hwf2.
    revert items2 Hwf1 Hwf2 Hc. induction IH as [|j items Hj _ IHitems];
      intros [|j2 items2] Hwf1 Hwf2 Heq; try done.
    simpl in *. simplify_eq.
    apply andb_true_iff in Hwf1 as [Hj1 Hitems1].
    apply andb_true_iff in Hwf2 as [Hj2 Hitems2].
    f_equal; [by apply Hj | by apply IHitems].
  - cbn [to_json]. do 2 f_equal. f_equal. f_equal.
    cbn [well_formed] in Hwf1, Hwf2.
    apply andb_true_iff in Hwf1 as [Hnd1 Hwf1].
    apply andb_true_iff in Hwf2 as [Hnd2 Hwf2].
    apply bool_decide_eq_true in Hnd1, Hnd2.
    rewrite forallb_forall in Hwf1, Hwf2.
    assert (Hkeys : ∀ {A} (g : json → A) (l : list (string * json)),
               ((λ kv, (kv.1, g kv.2)) <$> l).*1 = l.*1).
    { intros A g l. rewrite <- list_fmap_compose. by apply list_fmap_ext. }
    apply sorted_fields_unique; first by rewrite Hkeys.
    apply (fmap_Permutation_transfer (λ kv, (kv.1, logical_content kv.2))).
    + apply (list_to_map_inj (M := gmap string)); by rewrite ?Hkeys.
    + intros [k1 j1] [k2 j2] H1 H2 [= <- Hj]. simpl in *. f_equal.
      rewrite Forall_forall in IH. apply (IH _ H1); simpl; try done.
      * apply (Hwf1 (k1, j1)). by apply list_elem_of_In.
      * apply (Hwf2 (k1, j2)). by apply list_elem_of_In.
Qed.

End ManifestCodec.

(** C8: two manifest objects with the same logical content (the same
    values under the same field names, whatever the order in which the
    fields of an object were inserted) are encoded to the same string. *)
Theorem to_json_base64_deterministic (m1 m2 : analytics_core.json) :
  analytics_core.well_formed m1 = true →
  analytics_core.well_formed m2 = true →
  analytics_core.logical_content m1 = analytics_core.logical_content m2 →
  to_json_base64 m1 = to_json_base64 m2.
Proof.
  intros Hwf1 Hwf2 Hc.
  unfold to_json_base64, analytics_core.to_json_base64.
  by rewrite (to_json_content m1 m2).
Qed.

Lemma to_json_base64_deterministic_witness :
  let m1 := analytics_core.JObject
              [("b", analytics_core.JNumber 1);
               ("a", analytics_core.JArray
                       [analytics_core.JString "x"; analytics_core.JNull])] in
  let m2 := analytics_core.JObject
              [("a", analytics_core.JArray
                       [analytics_core.JString "x"; analytics_core.JNull]);
               ("b", analytics_core.JNumber 1)] in
  m1 ≠ m2 ∧
  analytics_core.logical_content m1 = analytics_core.logical_content m2 ∧
  to_json_base64 m1 = to_json_base64 m2 ∧
  to_json_base64 m2 = "eyJhIjpbIngiLG51bGxdLCJiIjoxfQ==".
Proof.
  intros m1 m2.
  assert (Hc : analytics_core.logical_content m1 = analytics_core.logical_content m2)
    by (vm_compute; reflexivity).
  split_and!; [done | exact Hc | | reflexivity].
  exact (to_json_base64_deterministic m1 m2 eq_refl eq_refl Hc).
Defined.


(** * Further properties *)

(** ** Table assembly: what a table is made of *)

Lemma get_table_list_row_dict d log r :
  NoDup (PyDict.keys d) →
  (get_table_list_row (d, log) r).1 =
    (λ item, (item.1,
              if decide (compact_name r = item.1)
              then Table.columns_append (column_of_row r) item.2
              else item.2)) <$>
    (if decide (compact_name r ∈ PyDict.keys d) then d
     else d ++ [(compact_name r, new_table r)]).
Proof.
  intros Hnd. unfold get_table_list_row. fold (compact_name r).
  fold (new_table r).
  destruct (_transform_column_type (data_type r)) as [ty events] eqn:Hty.
  cbn [fst].
  replace (Column.mk (column_name r) ty false (column_comment r) None)
    with (column_of_row r) by (unfold column_of_row; by rewrite Hty).
  unfold PyDict.contains.
  destruct (decide (compact_name r ∈ PyDict.keys d)) as [Hin | Hout].
  - rewrite bool_decide_eq_true_2 by done. cbn [negb].
    by apply alter_fmap.
  - rewrite bool_decide_eq_false_2 by done. cbn [negb].
    rewrite setitem_fresh by done.
    apply alter_fmap. unfold PyDict.keys in *. rewrite fmap_app.
    apply NoDup_app. split_and!; first done.
    + intros x Hx Hx'. apply list_elem_of_singleton in Hx'. by subst.
    + apply NoDup_singleton.
Qed.

Lemma get_table_list_row_headed seen d log r :
  assembled seen d → Forall (headed seen) d →
  Forall (headed (seen ++ [r])) (get_table_list_row (d, log) r).1.
Proof.
  intros [Hkeys Htabs] Hhead.
  rewrite get_table_list_row_dict by (rewrite Hkeys; apply first_seen_NoDup).
  apply Forall_fmap.
  assert (Hold : Forall (λ item,
            headed (seen ++ [r])
              (item.1, if decide (compact_name r = item.1)
                       then Table.columns_append (column_of_row r) item.2
                       else item.2)) d).
  { eapply Forall_impl; first exact Hhead.
    intros [k t] (r0 & rs & Hrows & Ht). cbn [fst snd] in *.
    unfold headed. cbn [fst snd]. rewrite rows_of_snoc, Hrows.
    destruct (decide (compact_name r = k)) as [Heq | Hne].
    - exists r0, (rs ++ [r]). split; first done.
      rewrite Ht. unfold Table.columns_append, table_from. cbn.
      by rewrite fmap_app.
    - exists r0, rs. by rewrite app_nil_r. }
  destruct (decide (compact_name r ∈ PyDict.keys d)) as [Hin | Hout];
    first done.
  apply Forall_app. split; first done.
  apply Forall_singleton. unfold headed, compose. cbn [fst snd].
  rewrite decide_True by done.
  exists r, []. rewrite rows_of_snoc, decide_True by done.
  rewrite rows_of_unseen; first done.
  by rewrite <- first_seen_elem_of, <- Hkeys.
Qed.

Lemma get_table_list_rows_headed rows seen d log :
  assembled seen d → Forall (headed seen) d →
  Forall (headed (seen ++ rows)) (foldl get_table_list_row (d, log) rows).1.
Proof.
  revert seen d log.
  induction rows as [|r rows IH]; intros seen d log Hinv Hhead.
  - cbn [foldl fst]. by rewrite app_nil_r.
  - pose proof (get_table_list_row_headed seen d log r Hinv Hhead) as Hhead'.
    destruct (get_table_list_row_assembled seen d log r Hinv) as [Hinv' _].
    cbn [foldl].
    destruct (get_table_list_row (d, log) r) as [d' log'].
    cbn [fst] in Hinv', Hhead'.
    specialize (IH (seen ++ [r]) d' log' Hinv' Hhead').
    by rewrite <- app_assoc in IH.
Qed.

(** The whole result of [get_table_list]: the tables of the compact names
    in first-seen order, each made from the rows of its name. *)
Lemma get_table_list_headed rows :
  ∃ d, get_table_list rows = (PyDict.values d, logged rows) ∧
       PyDict.keys d = first_seen (compact_name <$> rows) ∧
       Forall (headed rows) d.
Proof.
  assert (H0 : assembled [] ([] : PyDict.t Table.t)) by (by split).
  destruct (get_table_list_rows_assembled rows [] [] [] H0) as [Hinv Hlog].
  pose proof (get_table_list_rows_headed rows [] [] [] H0 (Forall_nil_2 _)) as Hh.
  unfold get_table_list.
  revert Hinv Hlog Hh.
  destruct (foldl _ _ rows) as [d log].
  cbn [fst snd app]. intros [Hkeys _] -> Hh. by exists d.
Qed.

(** X2: every returned table is made from the rows of its compact name:
    its description, schema and table name are those of the first such row
    (the comments of later rows are not looked at), its name is the compact
    name of that row, and its columns are those of all these rows. *)
Theorem get_table_list_table_from_first_row (rows : list Row) :
  Forall (λ t, ∃ r rs, rows_of (Table.name t) rows = r :: rs ∧ t = table_from r rs)
         (get_table_list rows).1.
Proof.
  destruct (get_table_list_headed rows) as (d & -> & _ & Hhead).
  cbn [fst]. unfold PyDict.values. apply Forall_fmap.
  eapply Forall_impl; first exact Hhead.
  intros [k t] (r & rs & Hrows & Ht). cbn [fst snd] in *. subst t.
  exists r, rs. split; last done.
  assert (Hr : r ∈ rows_of k rows) by (rewrite Hrows; left).
  apply list_elem_of_filter in Hr as [<- _]. exact Hrows.
Qed.

Lemma logged_warnings rows :
  logged rows = warning_of <$> filter unknown_type rows.
Proof.
  unfold logged. induction rows as [|r rows IH]; first done.
  cbn [mbind list_bind]. rewrite IH, filter_cons.
  unfold _transform_column_type at 1.
  destruct (decide (unknown_type r)) as [Hu | Hk].
  - unfold unknown_type in Hu. by rewrite Hu.
  - unfold unknown_type in Hk.
    destruct (CLICKHOUSE_TYPE_MAPPING !! lower (data_type r)) as [ty|] eqn:Hty;
      last done.
    destruct (mapping_keys_lower _ _ Hty) as [_ Hne]. cbn [default].
    by rewrite decide_False.
Qed.

(** X1: the events [get_table_list] logs are one warning for each row whose
    type string is not recognized, in the order of the rows, each carrying
    the type string of its row; rows of recognized types log nothing. *)
Theorem get_table_list_warnings (rows : list Row) :
  (get_table_list rows).2 = warning_of <$> filter unknown_type rows.
Proof.
  destruct (get_table_list_headed rows) as (d & -> & _).
  apply logged_warnings.
Qed.

Lemma rows_partition (ks : list string) (rows : list Row) :
  NoDup ks → (∀ r, r ∈ rows → compact_name r ∈ ks) →
  concat ((λ k, rows_of k rows) <$> ks) ≡ₚ rows.
Proof.
  intros Hnd. induction rows as [|r rows IH]; intros Hin.
  - clear. induction ks as [|k ks IH]; first done. done.
  - assert (Hr : compact_name r ∈ ks) by (apply Hin; left).
    apply list_elem_of_split in Hr as (k1 & k2 & ->).
    apply NoDup_app in Hnd as (Hnd1 & Hdisj & Hnd2).
    apply NoDup_cons in Hnd2 as [Hk2 Hnd2].
    assert (Hother : ∀ ks' : list string, compact_name r ∉ ks' →
              (λ k, rows_of k (r :: rows)) <$> ks' = (λ k, rows_of k rows) <$> ks').
    { intros ks' Hout. apply Forall_fmap_ext_1, Forall_forall.
      intros k Hk. unfold rows_of. rewrite filter_cons.
      rewrite decide_False; first done. by intros <-. }
    rewrite fmap_app, fmap_cons, !Hother; [|done|].
    2:{ intros Hk1. by eapply Hdisj; last left. }
    unfold rows_of at 2. rewrite filter_cons, decide_True by done.
    fold (rows_of (compact_name r) rows).
    rewrite concat_app, concat_cons. cbn [app].
    rewrite <- Permutation_middle. constructor.
    etransitivity; last (apply IH; intros r' Hr'; apply Hin; by right).
    by rewrite fmap_app, fmap_cons, concat_app, concat_cons.
Qed.

(** X3: no row is dropped and none is used twice: the columns of all
    returned tables together are the columns of the rows, up to their
    order; so the tables hold as many columns as there are rows, and every
    returned table has at least one column. *)
Theorem get_table_list_columns_partition (rows : list Row) :
  let tables := (get_table_list rows).1 in
  concat (Table.columns <$> tables) ≡ₚ column_of_row <$> rows ∧
  sum_list (length ∘ Table.columns <$> tables) = length rows ∧
  Forall (λ t, Table.columns t ≠ []) tables.
Proof.
  intros tables.
  destruct (get_table_list_headed rows) as (d & Hd & Hkeys & Hhead).
  assert (Hcols : Table.columns <$> tables =
                  (λ k, column_of_row <$> rows_of k rows) <$> PyDict.keys d).
  { unfold tables. rewrite Hd. cbn [fst]. unfold PyDict.values, PyDict.keys.
    rewrite <- !list_fmap_compose. apply Forall_fmap_ext_1.
    eapply Forall_impl; first exact Hhead.
    intros [k t] (r & rs & Hrows & Ht). cbn [fst snd compose] in *. subst t.
    by rewrite Hrows. }
  assert (Hperm : concat (Table.columns <$> tables) ≡ₚ column_of_row <$> rows).
  { rewrite Hcols.
    transitivity (column_of_row <$>
                    concat ((λ k, rows_of k rows) <$> PyDict.keys d)).
    - clear. induction (PyDict.keys d) as [|k ks IH]; first done.
      cbn. by rewrite fmap_app, IH.
    - apply fmap_Permutation, rows_partition.
      + rewrite Hkeys. apply first_seen_NoDup.
      + intros r Hr. rewrite Hkeys, first_seen_elem_of.
        by apply list_elem_of_fmap_2. }
  split_and!; first done.
  - apply Permutation_length in Hperm. rewrite length_fmap in Hperm.
    rewrite <- Hperm. clear. induction tables as [|t ts IH]; first done.
    cbn. rewrite length_app. by rewrite <- IH.
  - unfold tables. rewrite Hd. cbn [fst]. unfold PyDict.values.
    apply Forall_fmap. eapply Forall_impl; first exact Hhead.
    intros [k t] (r & rs & Hrows & Ht). cbn [fst snd] in *. by subst t.
Qed.

(** ** Compact names without dots *)

Lemma append_empty (s : string) : EmptyString +:+ s = s.
Proof. reflexivity. Qed.

Lemma append_String (c : ascii) (s t : string) :
  String c s +:+ t = String c (s +:+ t).
Proof. reflexivity. Qed.

Lemma format_compact_dot_free s1 t1 s2 t2 :
  dot_free s1 → dot_free s2 →
  _format_compact_table_name s1 t1 = _format_compact_table_name s2 t2 →
  s1 = s2 ∧ t1 = t2.
Proof.
  unfold _format_compact_table_name, dot_free.
  revert s2. induction s1 as [|c s1 IH]; intros [|c2 s2] H1 H2 Heq;
    rewrite ?append_String, ?append_empty in Heq; cbn in H1, H2.
  - by injection Heq as ->.
  - injection Heq as <- _. exfalso. apply H2. left.
  - injection Heq as -> _. exfalso. apply H1. left.
  - injection Heq as -> Heq.
    rewrite not_elem_of_cons in H1, H2.
    destruct (IH s2) as [-> ->]; naive_solver.
Qed.

(** X4: when neither schema contains a dot, two schema/table pairs have the
    same compact name only if they are the same pair. *)
Theorem format_compact_table_name_injective (s1 t1 s2 t2 : string) :
  dot_free s1 → dot_free s2 →
  _format_compact_table_name s1 t1 = _format_compact_table_name s2 t2 →
  s1 = s2 ∧ t1 = t2.
Proof. apply format_compact_dot_free. Qed.

Lemma format_compact_table_name_injective_witness :
  dot_free "sales" ∧
  _format_compact_table_name "sales" "orders.2024" =
    _format_compact_table_name "sales" "orders.2024" ∧
  ("sales" = "sales" ∧ "orders.2024" = "orders.2024").
Proof.
  assert (Hd : dot_free "sales").
  { apply (bool_decide_unpack _). vm_compute. exact I. }
  split; [exact Hd | split; [reflexivity |]].
  exact (format_compact_table_name_injective
           "sales" "orders.2024" "sales" "orders.2024" Hd Hd eq_refl).
Defined.

(** X5: when no schema among the rows contains a dot, rows of different
    schema/table pairs never end up in one table: every row that
    contributes to a returned table has the schema and the table name that
    the table's properties record. *)
Theorem get_table_list_no_merge (rows : list Row) :
  Forall (λ r, dot_free (table_schema r)) rows →
  Forall (λ t,
    Forall (λ r,
      table_schema r = TableProperties.schema (Table.properties t) ∧
      table_name r = TableProperties.table (Table.properties t))
      (rows_of (Table.name t) rows))
    (get_table_list rows).1.
Proof.
  intros Hdots.
  destruct (get_table_list_headed rows) as (d & -> & _ & Hhead).
  cbn [fst]. unfold PyDict.values. apply Forall_fmap.
  eapply Forall_impl; first exact Hhead.
  intros [k t] (r0 & rs & Hrows & Ht). cbn [fst snd compose] in *. subst t.
  cbn [Table.name Table.properties table_from
       TableProperties.schema TableProperties.table].
  rewrite Forall_forall in Hdots.
  assert (Hr0 : r0 ∈ rows_of k rows) by (rewrite Hrows; left).
  apply list_elem_of_filter in Hr0 as [Hk0 Hin0].
  apply Forall_forall. intros r Hr.
  apply list_elem_of_filter in Hr as [Hk Hin].
  apply format_compact_dot_free; [by apply Hdots | by apply Hdots | exact Hk].
Qed.

Lemma get_table_list_no_merge_witness :
  let rows := [mkRow "s1" "t.1" "orders" "a" "int32" "key";
               mkRow "s1" "t" "items" "a" "int64" "key";
               mkRow "s1" "t.1" "orders" "b" "string" "label"] in
  Forall (λ r, dot_free (table_schema r)) rows ∧
  Forall (λ t,
    Forall (λ r,
      table_schema r = TableProperties.schema (Table.properties t) ∧
      table_name r = TableProperties.table (Table.properties t))
      (rows_of (Table.name t) rows))
    (get_table_list rows).1.
Proof.
  intros rows.
  assert (Hd : Forall (λ r, dot_free (table_schema r)) rows).
  { apply (bool_decide_unpack _). vm_compute. exact I. }
  split; first exact Hd.
  exact (get_table_list_no_merge rows Hd).
Defined.

(** ** Type strings with anything but letters and digits *)

Lemma alphanumeric_lower c : alphanumeric (ascii_lower c) = alphanumeric c.
Proof. by destruct c as [[] [] [] [] [] [] [] []]. Qed.

Lemma lower_chars s :
  list_ascii_of_string (lower s) = ascii_lower <$> list_ascii_of_string s.
Proof. induction s as [|c s IH]; cbn; by rewrite ?IH. Qed.

Lemma mapping_keys_alphanumeric k ty :
  CLICKHOUSE_TYPE_MAPPING !! k = Some ty →
  forallb alphanumeric (list_ascii_of_string k) = true.
Proof.
  intros Hk. apply elem_of_list_to_map_2 in Hk.
  repeat (apply elem_of_cons in Hk as [[= -> ->] | Hk]; first done).
  by apply elem_of_nil in Hk.
Qed.

(** X6: a type string that holds any character other than an ASCII letter
    or digit (a parenthesis, a comma, a space, a quote) is never recognized:
    it maps to [UNKNOWN] with one warning. So the parameterized forms that
    ClickHouse reports, such as [Nullable(Int32)], [Decimal(10, 2)] or
    [FixedString(16)], all map to [UNKNOWN]. *)
Theorem transform_column_type_non_alphanumeric (s : string) (c : ascii) :
  c ∈ list_ascii_of_string s → alphanumeric c = false →
  _transform_column_type s =
    (UNKNOWN, [mkLogEvent WARNING ("Unknown ClickHouse data type: " +:+ s)]).
Proof.
  intros Hc Hna. unfold _transform_column_type.
  destruct (CLICKHOUSE_TYPE_MAPPING !! lower s) as [ty|] eqn:Hk; last done.
  exfalso. apply mapping_keys_alphanumeric in Hk.
  rewrite lower_chars, forallb_forall in Hk.
  specialize (Hk (ascii_lower c)).
  rewrite alphanumeric_lower, Hna in Hk.
  assert (false = true); last done.
  apply Hk, list_elem_of_In. by apply list_elem_of_fmap_2.
Qed.

Lemma transform_column_type_non_alphanumeric_witness :
  _transform_column_type "Decimal(10, 2)" =
    (UNKNOWN, [mkLogEvent WARNING "Unknown ClickHouse data type: Decimal(10, 2)"]) ∧
  _transform_column_type "Nullable(Int32)" =
    (UNKNOWN, [mkLogEvent WARNING "Unknown ClickHouse data type: Nullable(Int32)"]).
Proof.
  split.
  - apply (transform_column_type_non_alphanumeric "Decimal(10, 2)" "("%char).
    + apply (bool_decide_unpack _). vm_compute. exact I.
    + reflexivity.
  - apply (transform_column_type_non_alphanumeric "Nullable(Int32)" ")"%char).
    + apply (bool_decide_unpack _). vm_compute. exact I.
    + reflexivity.
Defined.

(** ** Table assembly: more rows *)

Lemma first_seen_prefix (l l' : list string) :
  first_seen l `prefix_of` first_seen (l ++ l').
Proof.
  induction l' as [|x l' IH] using rev_ind; first by rewrite app_nil_r.
  rewrite app_assoc, first_seen_snoc.
  destruct (decide (x ∈ l ++ l')); first done.
  by apply prefix_app_r.
Qed.

Lemma get_table_list_names rows :
  Table.name <$> (get_table_list rows).1 = first_seen (compact_name <$> rows).
Proof.
  destruct (get_table_list_assembled rows) as (d & -> & Hkeys & Htabs).
  cbn [fst]. rewrite <- Hkeys. unfold PyDict.values, PyDict.keys.
  rewrite <- list_fmap_compose. apply Forall_fmap_ext_1.
  eapply Forall_impl; first exact Htabs.
  by intros item (Hn & _).
Qed.

(** X7: rows that arrive later never reorder, remove or rewrite what the
    earlier rows gave: the table names of [rows] are a prefix of the table
    names of [rows ++ more], and every table of [rows] is found in the
    result of [rows ++ more] with the same name, description and
    properties, its columns followed by the columns of the rows of [more]
    that carry its name. *)
Theorem get_table_list_more_rows (rows more : list Row) :
  let tables := (get_table_list rows).1 in
  let tables' := (get_table_list (rows ++ more)).1 in
  Table.name <$> tables `prefix_of` Table.name <$> tables' ∧
  Forall (λ t, ∃ t',
    t' ∈ tables' ∧
    Table.name t' = Table.name t ∧
    Table.description t' = Table.description t ∧
    Table.properties t' = Table.properties t ∧
    Table.columns t' =
      Table.columns t ++ (column_of_row <$> rows_of (Table.name t) more))
    tables.
Proof.
  intros tables tables'. split.
  - unfold tables, tables'. rewrite !get_table_list_names, fmap_app.
    apply first_seen_prefix.
  - unfold tables, tables'.
    destruct (get_table_list_headed rows) as (d & -> & Hkeys & Hhead).
    destruct (get_table_list_headed (rows ++ more)) as (d' & -> & Hkeys' & Hhead').
    cbn [fst]. unfold PyDict.values. apply Forall_fmap, Forall_forall.
    intros [k t] Hkt. rewrite Forall_forall in Hhead, Hhead'.
    destruct (Hhead _ Hkt) as (r & rs & Hrows & Ht).
    cbn [fst snd compose] in *. subst t.
    assert (Hk : k ∈ PyDict.keys d').
    { rewrite Hkeys'. apply first_seen_elem_of. rewrite fmap_app.
      apply elem_of_app. left. apply first_seen_elem_of. rewrite <- Hkeys.
      unfold PyDict.keys. by apply (list_elem_of_fmap_2 fst _ _ Hkt). }
    apply list_elem_of_fmap in Hk as ([k' t'] & Hk' & Hkt').
    cbn [fst] in Hk'. subst k'.
    destruct (Hhead' _ Hkt') as (r' & rs' & Hrows' & Ht').
    cbn [fst snd] in *. subst t'.
    unfold rows_of in Hrows'. rewrite filter_app in Hrows'.
    fold (rows_of k rows) (rows_of k more) in Hrows'.
    rewrite Hrows in Hrows'. injection Hrows' as <- <-.
    exists (table_from r (rs ++ rows_of k more)).
    split_and!; try done.
    + by apply (list_elem_of_fmap_2 snd _ _ Hkt').
    + cbn. rewrite fmap_app. do 2 f_equal.
      assert (Hr : r ∈ rows_of k rows) by (rewrite Hrows; left).
      by apply list_elem_of_filter in Hr as [-> _].
Qed.


(** ** The key of a call *)

Lemma make_key_cases c :
  (∃ s, key_items c = [KVal (PStr s)] ∧ _make_key c = Ok (KFast (PStr s))) ∨
  (_make_key c =
     if forallb hashable_item (key_items c) then Ok (KHashedSeq (key_items c))
     else Raise (TypeError "unhashable type")) ∧
  ¬ (∃ s, key_items c = [KVal (PStr s)]).
Proof.
  unfold _make_key. fold (key_items c).
  destruct (key_items c) as [|[|[]] [|]];
    first [left; by eexists | right; split; [done | by intros [? [=]]]].
Qed.

Lemma keyword_items_inj (kw1 kw2 : list (string * pyval)) :
  flat_map (λ item, [KVal (PStr item.1); KVal item.2]) kw1 =
  flat_map (λ item, [KVal (PStr item.1); KVal item.2]) kw2 →
  kw1 = kw2.
Proof.
  revert kw2. induction kw1 as [|[k1 v1] kw1 IH]; intros [|[k2 v2] kw2];
    cbn; try done.
  intros [= -> -> Hrest]. f_equal. by apply IH.
Qed.

Lemma key_items_inj c1 c2 : key_items c1 = key_items c2 → c1 = c2.
Proof.
  destruct c1 as [a1 kw1], c2 as [a2 kw2]. unfold key_items. cbn [args kwds].
  revert a2. induction a1 as [|v1 a1 IH]; intros [|v2 a2] Heq.
  - cbn in Heq. f_equal.
    destruct kw1 as [|i1 kw1], kw2 as [|i2 kw2]; try done.
    apply (keyword_items_inj (i1 :: kw1) (i2 :: kw2)). congruence.
  - exfalso. cbn in Heq. by destruct kw1.
  - exfalso. cbn in Heq. by destruct kw2.
  - cbn in Heq. injection Heq as -> Heq.
    specialize (IH a2 Heq). by injection IH as -> ->.
Qed.

Lemma make_key_inj (c1 c2 : call) (key : cache_key) :
  _make_key c1 = Ok key → _make_key c2 = Ok key → c1 = c2.
Proof.
  intros H1 H2. apply key_items_inj.
  destruct (make_key_cases c1) as [(s1 & Hi1 & Hk1) | [Hk1 Hn1]],
           (make_key_cases c2) as [(s2 & Hi2 & Hk2) | [Hk2 Hn2]];
    rewrite Hk1 in H1; rewrite Hk2 in H2.
  - simplify_eq. by rewrite Hi1, Hi2.
  - destruct (forallb hashable_item (key_items c2)); simplify_eq.
  - destruct (forallb hashable_item (key_items c1)); simplify_eq.
  - destruct (forallb hashable_item (key_items c1)),
             (forallb hashable_item (key_items c2)); by simplify_eq.
Qed.

(** X10: the key determines the call: two calls have the same key only if
    they pass the same positional values and the same keyword arguments in
    the same order. Calls written differently never share a cache entry,
    even when they bind the parameters to the same values. *)
Theorem make_key_injective (c1 c2 : call) (key : cache_key) :
  _make_key c1 = Ok key → _make_key c2 = Ok key → c1 = c2.
Proof. apply make_key_inj. Qed.

Lemma make_key_injective_witness :
  let c := mkCall [PStr "M1"] [("function_path", PStr "fp")] in
  _make_key c =
    Ok (KHashedSeq [KVal (PStr "M1"); kwd_mark;
                    KVal (PStr "function_path"); KVal (PStr "fp")]) ∧
  c = c.
Proof.
  intros c. split; first reflexivity.
  exact (make_key_injective c c _ eq_refl eq_refl).
Defined.

(** X9: a call that passes a value that is not hashable (a [dict]), in any
    position or under any keyword, raises [TypeError] when its key is made:
    the constructor is not invoked, and the state, the counters included,
    is as before, whatever else is wrong or right with the call. *)
Theorem get_session_context_unhashable (SessionContext : constructor)
    (c : call) (s : cache_state) (v : pyval) :
  v ∈ args c ∨ v ∈ (kwds c).*2 →
  hashable v = false →
  ∃ msg, get_session_context SessionContext c s = (Raised (TypeError msg), s).
Proof.
  intros Hv Hh. exists "unhashable type".
  assert (Hin : KVal v ∈ key_items c).
  { unfold key_items. apply elem_of_app. destruct Hv as [Hv | Hv].
    - left. by apply list_elem_of_fmap_2.
    - right. apply list_elem_of_fmap in Hv as ([k v'] & -> & Hkv).
      destruct (kwds c) as [|i kw] eqn:Hkw; first by apply elem_of_nil in Hkv.
      right. apply list_elem_of_In, in_flat_map.
      exists (k, v'). split; first by apply list_elem_of_In.
      cbn. auto. }
  assert (Hf : forallb hashable_item (key_items c) = false).
  { apply not_true_is_false. rewrite forallb_forall. intros Hall.
    specialize (Hall (KVal v)). cbn in Hall. rewrite Hh in Hall.
    assert (false = true); last done.
    apply Hall. by apply list_elem_of_In. }
  unfold get_session_context.
  destruct (make_key_cases c) as [(s0 & Hi & _) | [-> _]].
  - rewrite Hi in Hin. apply list_elem_of_singleton in Hin.
    injection Hin as ->. done.
  - by rewrite Hf.
Qed.

Lemma get_session_context_unhashable_witness :
  let c := mkCall [PStr "M1"; PStr "fp"] [("properties", PDict [("x", "1")])] in
  ∃ msg, get_session_context always_succeeds c initial_state =
           (Raised (TypeError msg), initial_state).
Proof.
  intros c.
  apply (get_session_context_unhashable always_succeeds c initial_state
           (PDict [("x", "1")])).
  - right. cbn. left.
  - reflexivity.
Defined.

(** ** Handles in a run of calls *)

Section Handles.

Variable SessionContext : constructor.

Lemma get_session_context_distinct c s o s1 :
  handles_distinct s →
  get_session_context SessionContext c s = (o, s1) →
  handles_distinct s1.
Proof.
  intros [Hlt Hinj]. unfold get_session_context. intros H.
  destruct (_make_key c) as [key|]; last by simplify_eq.
  destruct (cache s !! key) as [h|] eqn:Hc; first by simplify_eq.
  destruct (bind_arguments c) as [a|]; last by simplify_eq.
  destruct (SessionContext (length (invocations s)) a); first by simplify_eq.
  simplify_eq. split; cbn [cache heap].
  - intros k h. rewrite length_app. cbn [length].
    destruct (decide (k = key)) as [-> | Hne].
    + rewrite lookup_insert_eq. intros [= <-]. lia.
    + rewrite lookup_insert_ne by done. intros Hk%Hlt. lia.
  - intros k1 k2 h.
    destruct (decide (k1 = key)) as [-> | Hne1],
             (decide (k2 = key)) as [-> | Hne2]; try done.
    + rewrite lookup_insert_eq, lookup_insert_ne by done.
      intros [= <-] Hk%Hlt. lia.
    + rewrite lookup_insert_eq, lookup_insert_ne by done.
      intros Hk%Hlt [= <-]. lia.
    + rewrite !lookup_insert_ne by done. apply Hinj.
Qed.

Lemma get_session_context_seq_distinct cs s os s1 :
  handles_distinct s →
  get_session_context_seq SessionContext cs s = (os, s1) →
  handles_distinct s1.
Proof.
  revert s os s1. induction cs as [|c cs IH]; intros s os s1 Hd H.
  - cbn in H. by simplify_eq.
  - cbn [get_session_context_seq] in H.
    destruct (get_session_context SessionContext c s) as [o s'] eqn:Hstep.
    destruct (get_session_context_seq SessionContext cs s') as [os' s''] eqn:Hrest.
    simplify_eq. eapply IH; last done.
    by eapply get_session_context_distinct.
Qed.

(** The handle a call of the run returned is what the dictionary holds
    under the key of that call when the run is over. *)
Lemma get_session_context_seq_cached cs s os s1 i c h :
  get_session_context_seq SessionContext cs s = (os, s1) →
  cs !! i = Some c → os !! i = Some (Returned h) →
  ∃ key, _make_key c = Ok key ∧ cache s1 !! key = Some h.
Proof.
  revert s os s1 i. induction cs as [|c0 cs IH]; intros s os s1 i H Hc Ho;
    first done.
  cbn [get_session_context_seq] in H.
  destruct (get_session_context SessionContext c0 s) as [o s'] eqn:Hstep.
  destruct (get_session_context_seq SessionContext cs s') as [os' s''] eqn:Hrest.
  simplify_eq. destruct i as [|i]; cbn in Hc, Ho.
  - simplify_eq.
    destruct (get_session_context_returned _ _ _ _ _ Hstep) as (key & Hk & Hh).
    exists key. split; first done.
    by eapply get_session_context_seq_keeps.
  - by eapply IH.
Qed.

(** X8: in a run of calls that starts with the empty cache, two calls that
    return handles return the same handle exactly when they are the same
    call (the same positional values and the same keyword arguments):
    a handle is never shared between calls of different keys. *)
Theorem get_session_context_seq_same_handle (cs : list call)
    (os : list outcome) (s1 : cache_state) (i j : nat) (c1 c2 : call)
    (h1 h2 : nat) :
  get_session_context_seq SessionContext cs initial_state = (os, s1) →
  cs !! i = Some c1 → cs !! j = Some c2 →
  os !! i = Some (Returned h1) → os !! j = Some (Returned h2) →
  (h1 = h2 ↔ c1 = c2).
Proof.
  intros Hrun Hc1 Hc2 Ho1 Ho2.
  destruct (get_session_context_seq_cached _ _ _ _ _ _ _ Hrun Hc1 Ho1)
    as (k1 & Hk1 & Hh1).
  destruct (get_session_context_seq_cached _ _ _ _ _ _ _ Hrun Hc2 Ho2)
    as (k2 & Hk2 & Hh2).
  assert (Hd : handles_distinct s1).
  { eapply get_session_context_seq_distinct; last done.
    split; [intros k h | intros k k' h]; cbn [cache initial_state];
      by rewrite lookup_empty. }
  split.
  - intros <-. destruct Hd as [_ Hinj].
    assert (k1 = k2) as <- by (by eapply Hinj).
    by eapply make_key_inj.
  - intros <-. congruence.
Qed.

End Handles.

Lemma get_session_context_seq_same_handle_witness :
  let omitted := mkCall [PStr "M1"; PStr "fp"] [] in
  let explicit := mkCall [PStr "M1"; PStr "fp"; PNone] [] in
  (get_session_context_seq always_succeeds [omitted; explicit; omitted]
     initial_state).1 = [Returned 0; Returned 1; Returned 0] ∧
  (0 = 0 ↔ omitted = omitted) ∧ (0 = 1 ↔ omitted = explicit).
Proof.
  intros omitted explicit.
  destruct (get_session_context_seq always_succeeds
              [omitted; explicit; omitted] initial_state) as [os s1] eqn:Hrun.
  assert (Hos : os = [Returned 0; Returned 1; Returned 0])
    by (by injection Hrun as <- _).
  subst os. split_and!; first done.
  - exact (get_session_context_seq_same_handle always_succeeds _ _ _ 0 2
             omitted omitted 0 0 Hrun eq_refl eq_refl eq_refl eq_refl).
  - exact (get_session_context_seq_same_handle always_succeeds _ _ _ 0 1
             omitted explicit 0 1 Hrun eq_refl eq_refl eq_refl eq_refl).
Defined.

(** ** Callers in several threads, under any schedule *)

Section AnySchedule.

Variable SessionContext : constructor.

Local Open Scope nat_scope.

Lemma sum_pending_insert (ts : list thread) (i : nat) (t t' : thread) :
  ts !! i = Some t →
  sum_list (pending <$> <[i := t']> ts) + pending t =
    sum_list (pending <$> ts) + pending t'.
Proof.
  revert i. induction ts as [|t0 ts IH]; intros [|i] Hi; try done.
  - cbn in Hi. simplify_eq. cbn. lia.
  - cbn in Hi. specialize (IH i Hi).
    change (pending t0 + sum_list (pending <$> <[i := t']> ts) + pending t =
            pending t0 + sum_list (pending <$> ts) + pending t').
    lia.
Qed.

Lemma thread_step_invocations s t :
  let s' := (thread_step SessionContext s t).1 in
  let t' := (thread_step SessionContext s t).2 in
  invocations s `prefix_of` invocations s' ∧
  length (invocations s') + pending t' ≤ length (invocations s) + pending t.
Proof.
  assert (Hsame : ∀ l : list (pyval * pyval * pyval), l `prefix_of` l) by done.
  destruct t as [c|c key|key h|o]; cbn [thread_step];
    repeat match goal with
           | |- context [match ?x with _ => _ end] => destruct x
           end;
    cbn; rewrite ?length_app; cbn;
    (split; [first [apply Hsame | by apply prefix_app_r] | lia]).
Qed.

Lemma schedule_step_invocations cfg i :
  let cfg' := schedule_step SessionContext cfg i in
  invocations (shared cfg) `prefix_of` invocations (shared cfg') ∧
  length (invocations (shared cfg')) + sum_list (pending <$> threads cfg') ≤
    length (invocations (shared cfg)) + sum_list (pending <$> threads cfg).
Proof.
  cbn zeta. destruct (threads cfg !! i) as [t|] eqn:Hi.
  - rewrite (schedule_step_at SessionContext cfg i t Hi). cbn [shared threads].
    destruct (thread_step_invocations (shared cfg) t) as [Hpre Hle].
    split; first done.
    pose proof (sum_pending_insert (threads cfg) i t
                  (thread_step SessionContext (shared cfg) t).2 Hi).
    lia.
  - unfold schedule_step. by rewrite Hi.
Qed.

Lemma run_invocations sched cfg :
  let cfg' := run SessionContext sched cfg in
  invocations (shared cfg) `prefix_of` invocations (shared cfg') ∧
  length (invocations (shared cfg')) + sum_list (pending <$> threads cfg') ≤
    length (invocations (shared cfg)) + sum_list (pending <$> threads cfg).
Proof.
  revert cfg. induction sched as [|i sched IH]; intros cfg; first done.
  cbn zeta. change (run SessionContext (i :: sched) cfg)
    with (run SessionContext sched (schedule_step SessionContext cfg i)).
  destruct (schedule_step_invocations cfg i) as [Hpre Hle].
  destruct (IH (schedule_step SessionContext cfg i)) as [Hpre' Hle'].
  split; [by etransitivity | lia].
Qed.

(** X11: under any schedule, whether the callers are done or not, the
    invocations of the constructor made since the start are no more than
    there are callers, and the earlier invocations are still the beginning
    of the record. *)
Theorem run_invocations_bounded (sched : list nat) (s : cache_state)
    (cs : list call) :
  let cfg := run SessionContext sched (mkConfig s (Calling <$> cs)) in
  invocations s `prefix_of` invocations (shared cfg) ∧
  length (invocations (shared cfg)) ≤ length (invocations s) + length cs.
Proof.
  destruct (run_invocations sched (mkConfig s (Calling <$> cs))) as [Hpre Hle].
  cbn [shared threads] in *. split; first done.
  assert (Hsum : sum_list (pending <$> (Calling <$> cs)) = length cs).
  { clear. induction cs as [|c cs IH]; first done. cbn. by rewrite IH. }
  lia.
Qed.





End AnySchedule.


(** ** What a returned handle points to, under any schedule *)

Section BuiltFor.

Variable SessionContext : constructor.

Local Open Scope nat_scope.

Lemma built_for_grows s s' c h :
  heap_grows s s' → built_for s c h → built_for s' c h.
Proof. intros Hg (a & Hb & Hh). exists a. split; [done | by apply Hg]. Qed.

Lemma thread_built_grows s s' c t :
  heap_grows s s' → thread_built s c t → thread_built s' c t.
Proof.
  intros Hg. destruct t as [c'|c' key|key h|[h|e]]; cbn; try done.
  - intros [Hk Hb]. split; first done. by eapply built_for_grows.
  - by apply built_for_grows.
Qed.

Lemma cache_built_grows s s' :
  heap_grows s s' → cache s' = cache s → cache_built s → cache_built s'.
Proof.
  intros Hg Hc Hb key h. rewrite Hc. intros (c & Hk & Hbuilt)%Hb.
  exists c. split; first done. by eapply built_for_grows.
Qed.

Lemma heap_grows_same s s' : heap s' = heap s → heap_grows s s'.
Proof. intros Hh h a. by rewrite Hh. Qed.

Lemma cache_built_same s s' :
  heap s' = heap s → cache s' = cache s → cache_built s → cache_built s'.
Proof. intros Hh. by apply cache_built_grows, heap_grows_same. Qed.

Lemma thread_step_built s c t :
  cache_built s → thread_built s c t →
  heap_grows s (thread_step SessionContext s t).1 ∧
  cache_built (thread_step SessionContext s t).1 ∧
  thread_built (thread_step SessionContext s t).1 c
               (thread_step SessionContext s t).2.
Proof.
  intros Hcache Ht.
  destruct t as [c'|c' key|key h|o]; cbn [thread_step thread_built] in *.
  - subst c'. destruct (_make_key c) as [key|e] eqn:Hkey.
    + destruct (cache s !! key) as [h|] eqn:Hc; cbn [fst snd thread_built].
      * (split; [|split]).
        -- by apply heap_grows_same.
        -- by apply (cache_built_same s).
        -- destruct (Hcache key h Hc) as (c0 & Hk0 & Hb0).
           by rewrite (make_key_inj c c0 key Hkey Hk0).
      * (split; [|split]); [by apply heap_grows_same | by apply (cache_built_same s) |
                     done].
    + cbn [fst snd thread_built]. (split; [|split]); [by apply heap_grows_same | done..].
  - destruct Ht as [-> Hkey].
    destruct (bind_arguments c) as [a|e] eqn:Hbind.
    + destruct (SessionContext (length (invocations s)) a);
        cbn [fst snd thread_built].
      * (split; [|split]); [by apply heap_grows_same | by apply (cache_built_same s) |
                     done].
      * assert (Hg : heap_grows s
                  (mkState (cache s) (hits s) (misses s) (heap s ++ [a])
                           (invocations s ++ [a]))).
        { intros h b Hh. cbn [heap]. by apply lookup_app_l_Some. }
        (split; [|split]); first done.
        -- by apply (cache_built_grows s).
        -- split; first done. exists a. split; first done. cbn [heap].
           by rewrite lookup_app_r, Nat.sub_diag.
    + cbn [fst snd thread_built]. (split; [|split]); [by apply heap_grows_same | done..].
  - destruct Ht as [Hkey Hb]. cbn [fst snd thread_built].
    (split; [|split]); [by apply heap_grows_same | | done].
    intros key' h'. cbn [cache].
    destruct (decide (key' = key)) as [-> | Hne].
    + rewrite lookup_insert_eq. intros [= <-]. by exists c.
    + rewrite lookup_insert_ne by done. apply Hcache.
  - cbn [fst snd]. (split; [|split]); [by apply heap_grows_same | done..].
Qed.

Lemma schedule_step_built cs cfg i :
  config_built cs cfg → config_built cs (schedule_step SessionContext cfg i).
Proof.
  intros [Hcache Hts].
  destruct (threads cfg !! i) as [t|] eqn:Hi; last first.
  { unfold schedule_step. by rewrite Hi. }
  rewrite (schedule_step_at SessionContext cfg i t Hi).
  destruct (Forall2_lookup_r _ _ _ _ _ Hts Hi) as (c & Hc & Ht).
  destruct (thread_step_built (shared cfg) c t Hcache Ht) as (Hg & Hcache' & Ht').
  split; cbn [shared threads]; first done.
  rewrite <- (list_insert_id cs i c Hc).
  apply Forall2_insert; last done.
  eapply Forall2_impl; first exact Hts.
  intros c0 t0. by apply thread_built_grows.
Qed.

Lemma run_built cs sched cfg :
  config_built cs cfg → config_built cs (run SessionContext sched cfg).
Proof.
  revert cfg. induction sched as [|i sched IH]; intros cfg Hb; first done.
  change (run SessionContext (i :: sched) cfg)
    with (run SessionContext sched (schedule_step SessionContext cfg i)).
  by apply IH, schedule_step_built.
Qed.

(** X13: whatever the interleaving of the callers, a handle is never handed
    to the wrong caller: when a caller has returned, its handle is the
    address of an object that the constructor built from the three values
    that the caller's own call binds. *)
Theorem run_returned_handle_built (sched : list nat) (s : cache_state)
    (cs : list call) (i : nat) (c : call) (h : nat) :
  cache_built s →
  cs !! i = Some c →
  let cfg := run SessionContext sched (mkConfig s (Calling <$> cs)) in
  threads cfg !! i = Some (Finished (Returned h)) →
  ∃ a, bind_arguments c = Ok a ∧ heap (shared cfg) !! h = Some a.
Proof.
  intros Hcache Hc cfg Hi.
  assert (Hb : config_built cs cfg).
  { apply run_built. split; first done. cbn [shared threads].
    apply Forall2_fmap_r, Forall_Forall2_diag, Forall_forall. by intros c0 _. }
  destruct Hb as [_ Hts].
  destruct (Forall2_lookup_r _ _ _ _ _ Hts Hi) as (c' & Hc' & Ht).
  by simplify_eq.
Qed.

End BuiltFor.

Lemma run_returned_handle_built_witness :
  let c := mkCall [PStr "M1"; PStr "fp"] [] in
  let c' := mkCall [PStr "M2"; PStr "fp"] [("properties", PFrozenset ∅)] in
  let cfg := run always_succeeds [0; 1; 2; 1; 0; 2; 2; 1; 0]
               (mkConfig initial_state (Calling <$> [c; c'; c])) in
  threads cfg !! 2 = Some (Finished (Returned 2)) ∧
  ∃ a, bind_arguments c = Ok a ∧ heap (shared cfg) !! 2 = Some a.
Proof.
  intros c c' cfg.
  assert (Hi : threads cfg !! 2 = Some (Finished (Returned 2))) by reflexivity.
  split; first exact Hi.
  apply (run_returned_handle_built always_succeeds
           [0; 1; 2; 1; 0; 2; 2; 1; 0] initial_state [c; c'; c] 2 c 2);
    [| reflexivity | exact Hi].
  intros key h. cbn [cache initial_state]. by rewrite lookup_empty.
Defined.


(** ** What a run of calls leaves in the heap *)

Section SequentialHeap.

Variable SessionContext : constructor.

Local Open Scope nat_scope.

Lemma get_session_context_built c s o s1 :
  cache_built s → heap_cached s →
  get_session_context SessionContext c s = (o, s1) →
  heap_grows s s1 ∧ cache_built s1 ∧ heap_cached s1 ∧
  ∀ h, o = Returned h → built_for s1 c h.
Proof.
  intros Hb Hc. unfold get_session_context. intros H.
  assert (Hsame : ∀ s', heap s' = heap s → cache s' = cache s →
            heap_grows s s' ∧ cache_built s' ∧ heap_cached s').
  { intros s' Hh Hcs. split_and!.
    - by apply heap_grows_same.
    - by apply (cache_built_same s).
    - intros h. rewrite Hh, Hcs. apply Hc. }
  destruct (_make_key c) as [key|] eqn:Hkey.
  2:{ simplify_eq. destruct (Hsame _ eq_refl eq_refl) as (? & ? & ?).
      by split_and!. }
  destruct (cache s !! key) as [h|] eqn:Hh.
  { simplify_eq. destruct (Hsame (count_hit s) eq_refl eq_refl) as (? & ? & ?).
    split_and!; try done.
    intros h' [= <-]. destruct (Hb key h Hh) as (c0 & Hk0 & Hb0).
    by rewrite (make_key_inj c c0 key Hkey Hk0). }
  destruct (bind_arguments c) as [a|] eqn:Hbind.
  2:{ simplify_eq.
      destruct (Hsame (mkState (cache s) (hits s) (S (misses s)) (heap s)
                         (invocations s)) eq_refl eq_refl) as (? & ? & ?).
      by split_and!. }
  destruct (SessionContext (length (invocations s)) a).
  { simplify_eq.
    destruct (Hsame (mkState (cache s) (hits s) (S (misses s)) (heap s)
                       (invocations s ++ [a])) eq_refl eq_refl) as (? & ? & ?).
    by split_and!. }
  simplify_eq.
  assert (Hg : heap_grows s (store_new key a s)).
  { intros h b Hhb. cbn [heap store_new]. by apply lookup_app_l_Some. }
  assert (Hnew : built_for (store_new key a s) c (length (heap s))).
  { exists a. split; first done. cbn [heap store_new].
    by rewrite lookup_app_r, Nat.sub_diag. }
  split_and!; first done.
  - intros key' h'. cbn [cache store_new].
    destruct (decide (key' = key)) as [-> | Hne].
    + rewrite lookup_insert_eq. intros [= <-]. by exists c.
    + rewrite lookup_insert_ne by done. intros (c0 & Hk0 & Hb0)%Hb.
      exists c0. split; first done. by eapply built_for_grows.
  - intros h. cbn [heap cache store_new]. rewrite length_app. cbn [length].
    intros Hlt. destruct (decide (h = length (heap s))) as [-> | Hne].
    + exists key. apply lookup_insert_eq.
    + destruct (Hc h) as [key' Hk']; first lia.
      exists key'. rewrite lookup_insert_ne; first done.
      intros <-. congruence.
  - by intros h' [= <-].
Qed.

(** X14: in a run of calls, one after another, that starts with the empty
    cache: every handle returned is the address of an object that the
    constructor built from the three values that this call binds, and every
    object built is held by the dictionary, so none is built to be lost. *)
Theorem get_session_context_seq_built (cs : list call) (os : list outcome)
    (s1 : cache_state) (i : nat) (c : call) (h : nat) :
  get_session_context_seq SessionContext cs initial_state = (os, s1) →
  cs !! i = Some c → os !! i = Some (Returned h) →
  (∃ a, bind_arguments c = Ok a ∧ heap s1 !! h = Some a) ∧
  (∀ h' : nat, h' < length (heap s1) → ∃ key, cache s1 !! key = Some h').
Proof.
  assert (Hgen : ∀ cs s os s1,
    cache_built s → heap_cached s →
    get_session_context_seq SessionContext cs s = (os, s1) →
    heap_grows s s1 ∧ cache_built s1 ∧ heap_cached s1 ∧
    ∀ i c h, cs !! i = Some c → os !! i = Some (Returned h) → built_for s1 c h).
  { clear. induction cs as [|c0 cs IH]; intros s os s1 Hb Hc H.
    - cbn in H. simplify_eq. split_and!; try done.
      by apply heap_grows_same.
    - cbn [get_session_context_seq] in H.
      destruct (get_session_context SessionContext c0 s) as [o s'] eqn:Hstep.
      destruct (get_session_context_seq SessionContext cs s') as [os' s'']
        eqn:Hrest.
      simplify_eq.
      destruct (get_session_context_built _ _ _ _ Hb Hc Hstep)
        as (Hg & Hb' & Hc' & Hret).
      destruct (IH _ _ _ Hb' Hc' Hrest) as (Hg' & Hb'' & Hc'' & Hret').
      split_and!; try done.
      + intros h a Hh. by apply Hg', Hg.
      + intros [|i] c h Hci Hoi; cbn in Hci, Hoi.
        * simplify_eq. eapply built_for_grows; first done. by apply Hret.
        * by eapply Hret'. }
  intros Hrun Hc Ho.
  assert (Hb0 : cache_built initial_state).
  { intros key h0. cbn [cache initial_state]. by rewrite lookup_empty. }
  assert (Hc0 : heap_cached initial_state).
  { intros h0. cbn [heap initial_state length]. lia. }
  destruct (Hgen cs initial_state os s1 Hb0 Hc0 Hrun)
    as (_ & _ & Hcached & Hret).
  split; [by eapply Hret | exact Hcached].
Qed.

End SequentialHeap.

Lemma get_session_context_seq_built_witness :
  let c := mkCall [PStr "M1"; PStr "fp"] [] in
  let c' := mkCall [PStr "M1"] [("function_path", PStr "fp")] in
  ∃ s1,
    get_session_context_seq fails_once [c; c'; c] initial_state =
      ([Raised (EngineError "engine unavailable"); Returned 0; Returned 1], s1) ∧
    heap s1 !! 1 = Some (PStr "M1", PStr "fp", PNone) ∧
    (∀ h' : nat, h' < length (heap s1) → ∃ key, cache s1 !! key = Some h').
Proof.
  intros c c'.
  destruct (get_session_context_seq fails_once [c; c'; c] initial_state)
    as [os s1] eqn:Hrun.
  assert (Hos : os = [Raised (EngineError "engine unavailable");
                      Returned 0; Returned 1]) by (by injection Hrun as <- _).
  subst os. exists s1. split; first done.
  destruct (get_session_context_seq_built fails_once [c; c'; c] _ s1 2 c 1
              Hrun eq_refl eq_refl) as [(a & Ha & Hh) Hcached].
  split; last exact Hcached.
  rewrite Hh. f_equal. cbn in Ha. by injection Ha as <-.
Defined.

(** ** Table assembly: one table at a time *)

Lemma first_seen_constant (l : list string) (k : string) :
  Forall (λ x, x = k) l → l ≠ [] → first_seen l = [k].
Proof.
  intros Hall Hne. destruct l as [|x l]; first done.
  apply Forall_cons in Hall as [Hx Hall]. subst x.
  cbn [first_seen]. f_equal.
  destruct (filter (λ y, y ≠ k) (first_seen l)) as [|y l'] eqn:E; first done.
  assert (Hy : y ∈ filter (λ y, y ≠ k) (first_seen l)) by (rewrite E; left).
  apply list_elem_of_filter in Hy as [Hyk Hy].
  rewrite first_seen_elem_of in Hy. rewrite Forall_forall in Hall.
  by specialize (Hall y Hy).
Qed.

(** X15: a table depends on the rows of its own compact name only: the
    table that [get_table_list] returns under a name is the one table it
    returns when it is given just the rows of that name. *)
Theorem get_table_list_table_alone (rows : list Row) (t : Table.t) :
  t ∈ (get_table_list rows).1 →
  (get_table_list (rows_of (Table.name t) rows)).1 = [t].
Proof.
  intros Ht.
  destruct (get_table_list_headed rows) as (d & Hd & _ & Hhead).
  rewrite Hd in Ht. cbn [fst] in Ht.
  apply list_elem_of_fmap in Ht as ([k t0] & -> & Hkt). cbn [snd].
  rewrite Forall_forall in Hhead.
  destruct (Hhead _ Hkt) as (r & rs & Hrows & Ht0). cbn [fst snd] in *.
  subst t0.
  assert (Hk : compact_name r = k).
  { assert (Hr : r ∈ rows_of k rows) by (rewrite Hrows; left).
    by apply list_elem_of_filter in Hr as [-> _]. }
  cbn [Table.name table_from]. rewrite Hk.
  assert (Hidem : rows_of k (rows_of k rows) = rows_of k rows).
  { unfold rows_of. apply list_filter_filter_l. done. }
  assert (Hnames : first_seen (compact_name <$> rows_of k rows) = [k]).
  { apply first_seen_constant; last by rewrite Hrows.
    apply Forall_fmap, Forall_forall. intros r' Hr'.
    by apply list_elem_of_filter in Hr' as [Hk' _]. }
  destruct (get_table_list_headed (rows_of k rows)) as (d' & -> & Hkeys' & Hhead').
  cbn [fst]. rewrite Hnames in Hkeys'.
  destruct d' as [|[k' t'] [|]]; try done.
  cbn in Hkeys'. injection Hkeys' as ->.
  apply Forall_singleton in Hhead' as (r' & rs' & Hrows' & Ht').
  cbn [fst snd] in *. rewrite Hidem, Hrows in Hrows'.
  injection Hrows' as <- <-. by subst t'.
Qed.

Lemma get_table_list_table_alone_witness :
  let rows := [mkRow "s1" "t1" "orders" "a" "int32" "key";
               mkRow "s1" "t2" "items" "a" "int64" "key";
               mkRow "s1" "t1" "ignored" "b" "string" "label"] in
  let t := Table.mk "s1.t1" "orders"
             [Column.mk "a" INT4 false "key" None;
              Column.mk "b" VARCHAR false "label" None]
             (TableProperties.mk None "s1" "t1") EmptyString in
  t ∈ (get_table_list rows).1 ∧
  (get_table_list (rows_of "s1.t1" rows)).1 = [t].
Proof.
  intros rows t.
  assert (Ht : t ∈ (get_table_list rows).1).
  { assert (E : (get_table_list rows).1 =
        [t; Table.mk "s1.t2" "items" [Column.mk "a" INT8 false "key" None]
              (TableProperties.mk None "s1" "t2") EmptyString]) by reflexivity.
    rewrite E. left. }
  split; first exact Ht.
  exact (get_table_list_table_alone rows t Ht).
Defined.
